(** * Memex unified search: a shallow embedding of
      [src/search/background/utils.ts], of the aggregation of search
      results by page, and of [src/content-scripts/background/index.ts].

    Conventions of the embedding.
    - A JavaScript string is a [string], a sequence of 8-bit characters; the
      embedding covers ASCII text: case folding acts on the letters A-Z, the
      white space of [trim] and of the regular expression [\s] is TAB, LF,
      VT, FF, CR and SPACE, and every other character is an ordinary one.
      Page and annotation identifiers are strings.
    - A timestamp (epoch milliseconds, a JS number holding an integer) is a
      [Z]; a [Date] is represented by its [valueOf()].
    - A JS [Set<string>] that is only asked for membership is a
      [gset string]; one that is listed back with [[...set]] is the list of
      its members in insertion order. A [Map<string, number>] is a
      [gmap string Z], an array is a [list].
    - A Dexie table is the list of its rows, in primary-key order. The keys
      of an index query, [where(...).equals(...).or(...)] and the like, are
      listed here in the order of the table; Dexie lists them as its cursors
      deliver them, an order the embedding does not follow. The theorems
      about these queries do not depend on the order of their keys. *)

From Stdlib Require Import ZArith List Ascii Permutation Lia.
From Stdlib Require Import Sorting.Sorted.
From stdpp Require Import base option list gmap strings.

Local Open Scope Z_scope.

(** * Part I: the embedding *)

(** ** ResultIntersector *)

Module Intersector.

(** The callback of [results.reduce]:
    [(a, b) => { const ids = new Set(b); return a.filter((id) => ids.has(id)) }]. *)
Definition intersectStep (a b : list string) : list string :=
  let ids : gset string := list_to_set b in
  filter (λ id, id ∈ ids) a.

(** [Array.prototype.reduce] without an initial value: the first element
    seeds the accumulator and the callback runs over the others. The empty
    array is caught by the [!results.length] guard. *)
Definition intersectResults (results : list (list string)) : list string :=
  match results with
  | [] => []
  | a :: rest => foldl intersectStep a rest
  end.

(** Membership in every one of a family of identifier lists. *)
Definition inAll (sets : list (list string)) (id : string) : Prop :=
  Forall (λ s, id ∈ s) sets.

#[global] Instance inAll_dec sets id : Decision (inAll sets id).
Proof. unfold inAll. apply _. Defined.

End Intersector.

(** ** JavaScript string primitives used by the search code *)

Module JsString.

Definition dquote : ascii := "034"%char.

Definition isUpper (c : ascii) : bool :=
  let n := Ascii.nat_of_ascii c in ((65 <=? n) && (n <=? 90))%nat.

Definition lowerChar (c : ascii) : ascii :=
  if isUpper c then Ascii.ascii_of_nat (Ascii.nat_of_ascii c + 32) else c.

(** [String.prototype.toLocaleLowerCase]. *)
Fixpoint toLocaleLowerCase (s : string) : string :=
  match s with
  | EmptyString => EmptyString
  | String c s' => String (lowerChar c) (toLocaleLowerCase s')
  end.

(** White space as [trim] and [\s] see it. *)
Definition isWhitespace (c : ascii) : bool := Ascii.is_space c.

(** [s.split(sep)] for a one-character separator: the fields between the
    occurrences of [sep], empty ones included; never the empty array. *)
Fixpoint split (sep : ascii) (s : string) : list string :=
  match s with
  | EmptyString => [EmptyString]
  | String c s' =>
      if Ascii.eqb c sep then EmptyString :: split sep s'
      else match split sep s' with
           | h :: t => String c h :: t
           | [] => [String c EmptyString]
           end
  end.

(** [s.split(/\s+/)]: the fields between maximal runs of white space. [gap]
    tells that the previous character was white space, in which case a
    further white-space character opens no new field. *)
Fixpoint splitWhitespaceFrom (gap : bool) (s : string) : list string :=
  match s with
  | EmptyString => [EmptyString]
  | String c s' =>
      if isWhitespace c then
        if gap then splitWhitespaceFrom true s'
        else EmptyString :: splitWhitespaceFrom true s'
      else match splitWhitespaceFrom false s' with
           | h :: t => String c h :: t
           | [] => [String c EmptyString]
           end
  end.

Definition splitWhitespace (s : string) : list string :=
  splitWhitespaceFrom false s.

(** [arr.filter(Boolean)] on strings: the empty string is the falsy one. *)
Definition filterBoolean (l : list string) : list string :=
  filter (λ s, s ≠ EmptyString) l.

Fixpoint trimStart (s : string) : string :=
  match s with
  | EmptyString => EmptyString
  | String c s' => if isWhitespace c then trimStart s' else s
  end.

Fixpoint trimEnd (s : string) : string :=
  match s with
  | EmptyString => EmptyString
  | String c s' =>
      match trimEnd s' with
      | EmptyString => if isWhitespace c then EmptyString else String c EmptyString
      | t => String c t
      end
  end.

(** [String.prototype.trim]. *)
Definition trim (s : string) : string := trimEnd (trimStart s).

Fixpoint startsWith (s prefix : string) : bool :=
  match prefix, s with
  | EmptyString, _ => true
  | String p prefix', String c s' => Ascii.eqb c p && startsWith s' prefix'
  | String _ _, EmptyString => false
  end.

(** [String.prototype.includes]. *)
Fixpoint includes (s needle : string) : bool :=
  startsWith s needle ||
  match s with
  | EmptyString => false
  | String _ s' => includes s' needle
  end.

(** A JS [Set<string>] keeps its members in insertion order and [add] of a
    member already present changes nothing; [[...set]] lists them in that
    order. *)
Definition setAdd (x : string) (members : list string) : list string :=
  if decide (x ∈ members) then members else members ++ [x].

(** The string is already in lower case. *)
Definition isLowerCase (s : string) : Prop := toLocaleLowerCase s = s.

Definition startsWithSpace (s : string) : bool :=
  match s with
  | EmptyString => false
  | String c _ => isWhitespace c
  end.

Fixpoint endsWithSpace (s : string) : bool :=
  match s with
  | EmptyString => false
  | String c EmptyString => isWhitespace c
  | String _ s' => endsWithSpace s'
  end.

(** The string begins or ends with a white-space character. *)
Definition hasOuterWhitespace (s : string) : bool :=
  startsWithSpace s || endsWithSpace s.

(** [needle] is a substring of [s]. *)
Definition occursIn (needle s : string) : Prop :=
  ∃ pre post, s = pre +:+ needle +:+ post.

(** Some character of the string satisfies [p]. *)
Fixpoint hasChar (p : ascii → bool) (s : string) : bool :=
  match s with
  | EmptyString => false
  | String c s' => p c || hasChar p s'
  end.

Definition isDquote (c : ascii) : bool := Ascii.eqb c dquote.

End JsString.

(** ** QueryTokenizer *)

Module Tokenizer.
Import JsString.

Record TermsAndPhrases := { terms : list string; phrases : list string }.

(** [term.trim().length !== term.length || term === query]. *)
Definition wasNotDoubleQuoted (term query : string) : bool :=
  negb (String.length (trim term) =? String.length term)%nat
  || bool_decide (term = query).

(** One iteration of [for (const term of terms)] on the pair of sets
    [(discreteTerms, phrases)]. *)
Definition tokenizeFragment (query : string)
    (sets : list string * list string) (term : string)
    : list string * list string :=
  if wasNotDoubleQuoted term query then
    let subTerms := filterBoolean (splitWhitespace term) in
    (foldl (λ discreteTerms subTerm, setAdd subTerm discreteTerms)
           sets.1 subTerms, sets.2)
  else (sets.1, setAdd term sets.2).

(** The fragments the loop runs over:
    [query.toLocaleLowerCase().split(DQ).filter(Boolean)], where [DQ] is the
    one-character string holding the double quote. *)
Definition fragments (query : string) : list string :=
  filterBoolean (split dquote (toLocaleLowerCase query)).

Definition splitQueryIntoTerms (query : string) : TermsAndPhrases :=
  let sets := foldl (tokenizeFragment query) ([], []) (fragments query) in
  {| terms := sets.1; phrases := sets.2 |}.

(** [term.split(/\s+/).filter(Boolean)]: the words of a fragment. *)
Definition subTermsOf (term : string) : list string :=
  filterBoolean (splitWhitespace term).

(** The reading of the tokenizer by position: the fields of the split on the
    double quote lie alternately outside and inside a pair of quotes, the
    first one outside. [fieldsWhere want inside fields] keeps the fields
    whose position is inside quotes exactly when [want] says so. *)
Fixpoint fieldsWhere (want inside : bool) (fields : list string) : list string :=
  match fields with
  | [] => []
  | f :: rest =>
      (if bool_decide (inside = want) then [f] else [])
      ++ fieldsWhere want (negb inside) rest
  end.

Definition outsideQuotes (query : string) : list string :=
  filterBoolean (fieldsWhere false false (split dquote (toLocaleLowerCase query))).

Definition insideQuotes (query : string) : list string :=
  filterBoolean (fieldsWhere true false (split dquote (toLocaleLowerCase query))).

(** The tokenizer as a split by position: terms are the words of the
    fragments outside quotes, phrases are the fragments inside quotes. *)
Definition tokenizesByQuotePosition (query : string) : Prop :=
  let r := splitQueryIntoTerms query in
  (∀ t, t ∈ terms r ↔ ∃ f, f ∈ outsideQuotes query ∧ t ∈ subTermsOf f) ∧
  (∀ p, p ∈ phrases r ↔ p ∈ insideQuotes query).

(** [quoted s] is [s] between two double quotes. *)
Definition quoted (s : string) : string :=
  String dquote (s +:+ String dquote EmptyString).

End Tokenizer.

(** ** Rows of the store *)

(** The fields of [Page], [Visit], [Bookmark] and [Annotation] that the
    search code reads. An optional or absent text field is [None]. The
    [..._terms] fields are the multi-entry term indexes of the table. *)

Module Page.
Record t := {
  url : string;
  text : option string;
  terms : list string;
  urlTerms : list string;
  titleTerms : list string;
}.
End Page.

Module Visit.
Record t := { url : string; time : Z }.
End Visit.

Module Bookmark.
Record t := { url : string; time : Z }.
End Bookmark.

Module Annotation.
Record t := {
  url : string;
  pageUrl : string;
  body : option string;
  comment : option string;
  lastEdited : Z;
  _body_terms : list string;
  _comment_terms : list string;
}.
End Annotation.

(** ** [Array.prototype.sort] *)

Module JsArray.

Section Sort.
Context {A : Type}.

(** [insertSorted cmp x l] puts [x] in front of the first element that the
    comparator does not order before it. *)
Fixpoint insertSorted (cmp : A → A → Z) (x : A) (l : list A) : list A :=
  match l with
  | [] => [x]
  | y :: l' =>
      if cmp x y <=? 0 then x :: y :: l' else y :: insertSorted cmp x l'
  end.

(** [arr.sort(cmp)]. The language fixes the result for a consistent
    comparator: the elements in comparator order, elements that compare
    equal in their original order. Insertion from the right computes it. *)
Definition sort (cmp : A → A → Z) (l : list A) : list A :=
  foldr (insertSorted cmp) [] l.

(** Comparators of the form [(a, b) => key(b) - key(a)]: descending keys. *)
Definition byKeyDescending (key : A → Z) (a b : A) : Z := key b - key a.

Definition descending (key : A → Z) : list A → Prop :=
  StronglySorted (λ a b, key b ≤ key a).

End Sort.

End JsArray.

(** ** ResultMerger/Ranker *)

Module Ranker.

(** The value type of [UnifiedBlankSearchResult['resultDataByPage']], as
    [sortUnifiedBlankSearchResult] reads it. *)
Record PageResultData := {
  latestPageTimestamp : Z;
  annotations : list Annotation.t;
}.

(** [Math.max(e.latestPageTimestamp, e.annotations[0]?.lastEdited.valueOf() ?? 0)]. *)
Definition activityTimestamp (e : PageResultData) : Z :=
  Z.max (latestPageTimestamp e)
        (match annotations e with
         | a :: _ => Annotation.lastEdited a
         | [] => 0
         end).

(** The comparator [([, a], [, b]) => activity(b) - activity(a)]. *)
Definition compareByActivity (a b : string * PageResultData) : Z :=
  activityTimestamp b.2 - activityTimestamp a.2.

(** [[...resultDataByPage].sort(compareByActivity)]: the collection is given
    by its pairs in iteration order. *)
Definition sortUnifiedBlankSearchResult
    (resultDataByPage : list (string * PageResultData))
    : list (string * PageResultData) :=
  JsArray.sort compareByActivity resultDataByPage.

(** The newest edit time among annotations, 0 when there is none. *)
Definition newestEdit (annots : list Annotation.t) : Z :=
  match annots with
  | [] => 0
  | a :: rest =>
      foldr (λ b m, Z.max (Annotation.lastEdited b) m) (Annotation.lastEdited a) rest
  end.

(** The annotation list runs from the newest edit to the oldest. *)
Definition newestFirst (annots : list Annotation.t) : Prop :=
  StronglySorted (λ a b, Annotation.lastEdited b ≤ Annotation.lastEdited a) annots.

Definition entry (pageTimestamp : Z) : PageResultData :=
  {| latestPageTimestamp := pageTimestamp; annotations := [] |}.

(** *** The call with its arrays on the heap.
    Collections live in a store of arrays addressed by reference, so that
    building a new array and sorting one in place are told apart. A read
    through a reference that holds nothing is the failure [None]. *)

Abbreviation heap := (gmap nat (list (string * PageResultData))).

(** [[...xs]]: a new array, at an unused reference, holding the pairs of the
    collection at [src] in iteration order. *)
Definition spread (src : nat) (h : heap) : option (nat * heap) :=
  match h !! src with
  | Some xs => let dst := fresh (dom h) in Some (dst, <[dst := xs]> h)
  | None => None
  end.

(** [arr.sort(cmp)]: sorts the array at [r] in place and returns [r]. *)
Definition sortInPlace (cmp : string * PageResultData → string * PageResultData → Z)
    (r : nat) (h : heap) : option (nat * heap) :=
  match h !! r with
  | Some xs => Some (r, <[r := JsArray.sort cmp xs]> h)
  | None => None
  end.

Definition sortUnifiedBlankSearchResultOnHeap (resultDataByPage : nat) (h : heap)
    : option (nat * heap) :=
  match spread resultDataByPage h with
  | Some (copy, h1) => sortInPlace compareByActivity copy h1
  | None => None
  end.

Definition sampleAnnotation (key pageUrl : string) (edited : Z) : Annotation.t :=
  {| Annotation.url := key; Annotation.pageUrl := pageUrl;
     Annotation.body := None; Annotation.comment := None;
     Annotation.lastEdited := edited;
     Annotation._body_terms := []; Annotation._comment_terms := [] |}.

Definition sampleEntry : PageResultData :=
  {| latestPageTimestamp := 10;
     annotations := [sampleAnnotation "a2" "p" 30; sampleAnnotation "a1" "p" 20] |}.

Definition exampleHeap : heap :=
  {[ 0%nat := [("p1", entry 100); ("p2", entry 50); ("p3", entry 200)] ]}.

End Ranker.

(** ** TermIndexQuery and TimestampReconciler *)

Module TermIndexQuery.
Import JsString Intersector.

(** The tables of the Dexie instance behind [storageManager]. *)
Record Storage := {
  pages : list Page.t;
  visits : list Visit.t;
  bookmarks : list Bookmark.t;
  annotations : list Annotation.t;
}.

(** [text?.toLocaleLowerCase().includes(phrase)], read as a condition: a
    missing text does not match. *)
Definition textIncludes (text : option string) (phrase : string) : bool :=
  match text with
  | Some t => includes (toLocaleLowerCase t) phrase
  | None => false
  end.

(** [table.where('_body_terms').equals(term).or('_comment_terms').equals(term)
    .primaryKeys()]: the key of every annotation that has the term in one of
    the two indexes, once. The keys are listed in the order of the table,
    which is not the order in which Dexie's cursors deliver them. *)
Definition annotationTermKeys (table : list Annotation.t) (term : string)
    : list string :=
  Annotation.url <$>
    filter (λ a, term ∈ Annotation._body_terms a
                 ∨ term ∈ Annotation._comment_terms a) table.

(** [table.filter((a) => inComment || inHighlight).primaryKeys()]. *)
Definition annotationPhraseKeys (table : list Annotation.t) (phrase : string)
    : list string :=
  Annotation.url <$>
    filter (λ a, textIncludes (Annotation.comment a) phrase
                 || textIncludes (Annotation.body a) phrase) table.

(** [table.bulkGet(keys)]: for each key the row of that primary key, or
    [undefined]. *)
Definition bulkGet (table : list Annotation.t) (keys : list string)
    : list (option Annotation.t) :=
  (λ k, List.find (λ a, bool_decide (Annotation.url a = k)) table) <$> keys.

Definition queryAnnotationsByTerms (storageManager : Storage)
    (terms phrases : list string) : list (option Annotation.t) :=
  let table := annotations storageManager in
  let resultsPerTerm :=
    (annotationTermKeys table <$> terms)
    ++ (annotationPhraseKeys table <$> phrases) in
  let matchingIds := intersectResults resultsPerTerm in
  bulkGet table matchingIds.

(** The index test of one term on one page: [equals(term)] or, with
    [startsWithMatching], [startsWith(term)], on the indexes [terms],
    [urlTerms] and [titleTerms]. *)
Definition indexMatches (startsWithMatching : bool) (term : string)
    (index : list string) : bool :=
  if startsWithMatching then existsb (λ t, startsWith t term) index
  else bool_decide (term ∈ index).

(** [coll.distinct().primaryKeys()] for the collection of one term: the key
    of every page that has a match in one of the three indexes, once. The
    keys are listed in the order of the table, which is not the order in
    which Dexie's cursors deliver them. *)
Definition pageTermKeys (startsWithMatching : bool) (table : list Page.t)
    (term : string) : list string :=
  Page.url <$>
    filter (λ p, indexMatches startsWithMatching term (Page.terms p)
                 || indexMatches startsWithMatching term (Page.urlTerms p)
                 || indexMatches startsWithMatching term (Page.titleTerms p))
           table.

(** [table.filter((page) => page.text?.toLocaleLowerCase().includes(phrase))
    .primaryKeys()]. *)
Definition pagePhraseKeys (table : list Page.t) (phrase : string)
    : list string :=
  Page.url <$> filter (λ p, textIncludes (Page.text p) phrase) table.

(** [trackLatestTimestamp] on the map [latestTimestampByPageUrl]. *)
Definition trackLatestTimestamp (latestTimestampByPageUrl : gmap string Z)
    (row : string * Z) : gmap string Z :=
  <[row.1 := Z.max row.2 (default 0 (latestTimestampByPageUrl !! row.1))]>
    latestTimestampByPageUrl.

(** [table.where('url').anyOf(matchingIds).reverse().sortBy('time')] on a
    table of [(url, time)] rows: the rows of the given pages, latest first. *)
Definition queryTimestamps (table : list (string * Z))
    (matchingIds : list string) : list (string * Z) :=
  JsArray.sort (JsArray.byKeyDescending snd)
               (filter (λ row, row.1 ∈ matchingIds) table).

Definition visitRows (storageManager : Storage) : list (string * Z) :=
  (λ v, (Visit.url v, Visit.time v)) <$> visits storageManager.

Definition bookmarkRows (storageManager : Storage) : list (string * Z) :=
  (λ b, (Bookmark.url b, Bookmark.time b)) <$> bookmarks storageManager.

Record PageMatch := { id : string; latestTimestamp : Z }.

(** The page identifiers that survive the intersection. *)
Definition matchingPageIds (storageManager : Storage)
    (startsWithMatching : bool) (terms phrases : list string) : list string :=
  let table := pages storageManager in
  let resultsPerTerm :=
    (pageTermKeys startsWithMatching table <$> terms)
    ++ (pagePhraseKeys table <$> phrases) in
  intersectResults resultsPerTerm.

Definition queryPagesByTerms (storageManager : Storage)
    (startsWithMatching : bool) (terms phrases : list string)
    : list PageMatch :=
  let matchingIds :=
    matchingPageIds storageManager startsWithMatching terms phrases in
  let visits := queryTimestamps (visitRows storageManager) matchingIds in
  let bookmarks := queryTimestamps (bookmarkRows storageManager) matchingIds in
  let latestTimestampByPageUrl :=
    foldl trackLatestTimestamp (foldl trackLatestTimestamp ∅ visits) bookmarks in
  (λ id, {| id := id;
            latestTimestamp := default 0 (latestTimestampByPageUrl !! id) |})
    <$> matchingIds.

(** The phrase occurs in the text when case is ignored; a missing text
    holds no phrase. *)
Definition textContains (text : option string) (phrase : string) : Prop :=
  ∃ t, text = Some t
       ∧ occursIn (toLocaleLowerCase phrase) (toLocaleLowerCase t).

(** Two rows with the same key and raw text fields, whatever their term
    indexes hold. *)
Definition sameAnnotationText (a b : Annotation.t) : Prop :=
  Annotation.url a = Annotation.url b
  ∧ Annotation.comment a = Annotation.comment b
  ∧ Annotation.body a = Annotation.body b.

Definition samePageText (p q : Page.t) : Prop :=
  Page.url p = Page.url q ∧ Page.text p = Page.text q.

(** The [time] values of the Visit and Bookmark rows of one page. *)
Definition timesOfPage (storageManager : Storage) (pageUrl : string) : list Z :=
  (Visit.time <$> filter (λ v, Visit.url v = pageUrl) (visits storageManager))
  ++ (Bookmark.time <$>
        filter (λ b, Bookmark.url b = pageUrl) (bookmarks storageManager)).

(** [m] is the largest element of [l]. *)
Definition isMaximumOf (m : Z) (l : list Z) : Prop :=
  m ∈ l ∧ Forall (λ t, t ≤ m) l.

(** The larger of 0 and every element of the list. *)
Definition maxWithZero (l : list Z) : Z := foldr Z.max 0 l.

(** The annotation has every term in its body or comment term index and
    holds every phrase in its comment or highlighted body. *)
Definition annotationMatches (terms phrases : list string)
    (a : Annotation.t) : Prop :=
  Forall (λ term, term ∈ Annotation._body_terms a
                  ∨ term ∈ Annotation._comment_terms a) terms
  ∧ Forall (λ phrase, textIncludes (Annotation.comment a) phrase
                      || textIncludes (Annotation.body a) phrase) phrases.

(** The page has every term in one of its three term indexes (as a whole
    entry or, with [startsWithMatching], as the beginning of one) and holds
    every phrase in its text. *)
Definition pageMatches (startsWithMatching : bool) (terms phrases : list string)
    (p : Page.t) : Prop :=
  Forall (λ term, indexMatches startsWithMatching term (Page.terms p)
                  || indexMatches startsWithMatching term (Page.urlTerms p)
                  || indexMatches startsWithMatching term (Page.titleTerms p))
         terms
  ∧ Forall (λ phrase, textIncludes (Page.text p) phrase) phrases.

Definition sampleAnnotations : list Annotation.t :=
  [{| Annotation.url := "p#1"; Annotation.pageUrl := "p";
      Annotation.body := Some "Spaced Repetition works";
      Annotation.comment := None; Annotation.lastEdited := 10;
      Annotation._body_terms := ["spaced"; "repetition"; "works"];
      Annotation._comment_terms := [] |};
   {| Annotation.url := "p#2"; Annotation.pageUrl := "p";
      Annotation.body := None;
      Annotation.comment := Some "repetition again";
      Annotation.lastEdited := 20;
      Annotation._body_terms := [];
      Annotation._comment_terms := ["repetition"; "again"] |}].

(** The identifier sets that [queryAnnotationsByTerms] and
    [queryPagesByTerms] hand to [intersectResults]. *)
Definition annotationSets (table : list Annotation.t)
    (terms phrases : list string) : list (list string) :=
  (annotationTermKeys table <$> terms)
  ++ (annotationPhraseKeys table <$> phrases).

Definition pageSets (startsWithMatching : bool) (table : list Page.t)
    (terms phrases : list string) : list (list string) :=
  (pageTermKeys startsWithMatching table <$> terms)
  ++ (pagePhraseKeys table <$> phrases).

Definition samplePage (url : string) (text : string) (terms : list string)
    : Page.t :=
  {| Page.url := url; Page.text := Some text; Page.terms := terms;
     Page.urlTerms := []; Page.titleTerms := [] |}.

Definition sampleStorage : Storage :=
  {| pages := [samplePage "p" "Foo and Bar Baz" ["foo"; "bar"; "baz"];
               samplePage "q" "only foo here" ["only"; "foo"; "here"]];
     visits := [{| Visit.url := "p"; Visit.time := 20 |};
                {| Visit.url := "p"; Visit.time := 30 |}];
     bookmarks := [{| Bookmark.url := "p"; Bookmark.time := 25 |}];
     annotations := [] |}.

Definition annotationStorage : Storage :=
  {| pages := []; visits := []; bookmarks := [];
     annotations := sampleAnnotations |}.

End TermIndexQuery.

(** ** The entries of a result: aggregation by page.
    The unified searches are exercised by the unified-search tests; their
    own code is not among the sources embedded here. The aggregation by page
    is modelled from the spec (section 3 and section 4.5, step 3). Which
    rows a search hands to the aggregation is not fixed here: the
    definitions take the rows as arguments, and a window of a blank search
    is given by its two bounds. *)

Module BlankSearch.
Import TermIndexQuery.

(** Modelled from the spec: a [PageResultEntry] (section 3), with the field
    names under which the unified-search tests read it. *)
Record PageResultEntry := { annotIds : list string; timestamp : Z }.

(** Modelled from the spec: what is gathered for one page while the rows
    are aggregated, the annotations found so far, newest first, and the
    activity timestamp. *)
Record PageAggregate := { annots : list Annotation.t; latest : Z }.

(** Modelled from the spec: section 4.5, step 3, for a Visit or Bookmark row
    [(url, time)]. Make sure the page has an entry and raise its activity
    timestamp to the row's time. *)
Definition addTimestamp (byPage : gmap string PageAggregate)
    (row : string * Z) : gmap string PageAggregate :=
  match byPage !! row.1 with
  | None => <[row.1 := {| annots := []; latest := row.2 |}]> byPage
  | Some e =>
      <[row.1 := {| annots := annots e; latest := Z.max (latest e) row.2 |}]>
        byPage
  end.

(** Modelled from the spec: section 4.5, step 3, for an annotation. Insert
    it in the list of its page so that the list stays sorted by [lastEdited]
    descending, and raise the activity timestamp to its edit time. *)
Definition addAnnotation (byPage : gmap string PageAggregate)
    (a : Annotation.t) : gmap string PageAggregate :=
  match byPage !! Annotation.pageUrl a with
  | None =>
      <[Annotation.pageUrl a :=
          {| annots := [a]; latest := Annotation.lastEdited a |}]> byPage
  | Some e =>
      <[Annotation.pageUrl a :=
          {| annots :=
               JsArray.insertSorted
                 (JsArray.byKeyDescending Annotation.lastEdited) a (annots e);
             latest := Z.max (latest e) (Annotation.lastEdited a) |}]> byPage
  end.

(** Modelled from the spec: section 4.5, step 3, over the Visit and Bookmark
    rows and the annotations that a search has selected. *)
Definition aggregateByPage (timestampRows : list (string * Z))
    (annotations : list Annotation.t) : gmap string PageAggregate :=
  foldl addAnnotation (foldl addTimestamp ∅ timestampRows) annotations.

(** Modelled from the spec: the entry handed out for a page lists the
    identifiers of its annotations. *)
Definition toEntry (e : PageAggregate) : PageResultEntry :=
  {| annotIds := Annotation.url <$> annots e; timestamp := latest e |}.

(** Modelled from the spec: the [resultDataByPage] of a search that has
    selected the given rows (sections 3 and 6). *)
Definition resultDataByPage (timestampRows : list (string * Z))
    (annotations : list Annotation.t) : gmap string PageResultEntry :=
  toEntry <$> aggregateByPage timestampRows annotations.

(** Modelled from the spec: the window [[lower, upper)] of section 4.5,
    step 2. *)
Definition inWindow (lower upper t : Z) : bool :=
  (lower <=? t) && (t <? upper).

(** Modelled from the spec: section 4.5, steps 2 and 3, for the window
    [[lower, upper)]: the visits, bookmarks and annotations of the store
    whose timestamp lies in the window, aggregated by page. How a call
    derives the bounds of its window from its parameters is left open. *)
Definition blankSearchEntries (st : Storage) (lower upper : Z)
    : gmap string PageResultEntry :=
  resultDataByPage
    (filter (λ row, inWindow lower upper row.2)
            (visitRows st ++ bookmarkRows st))
    (filter (λ a, inWindow lower upper (Annotation.lastEdited a))
            (annotations st)).

(** The annotations of an entry are among the selected ones, all belong to
    the page [key], and run from the newest edit to the oldest. *)
Definition annotationsOfPage (selected : list Annotation.t) (key : string)
    (l : list Annotation.t) : Prop :=
  Forall (λ a, a ∈ selected ∧ Annotation.pageUrl a = key) l
  ∧ Ranker.newestFirst l.

(** Every entry gathered so far lists annotations of its own page, newest
    first. *)
Definition wellFormedIn (selected : list Annotation.t)
    (byPage : gmap string PageAggregate) : Prop :=
  ∀ key e, byPage !! key = Some e → annotationsOfPage selected key (annots e).

Definition dayMs : Z := 86400000.

(** The start of day [n] of the epoch. *)
Definition day (n : Z) : Z := n * dayMs.

(** A store whose newest rows lie on day 30, a visit and two annotations of
    page [p] and an annotation of page [r], with an older annotation of [p]
    on day 10, and whose oldest row is a bookmark of page [q] on day 3. *)
Definition pagedStorage : Storage :=
  {| pages := [];
     visits := [{| Visit.url := "p"; Visit.time := day 30 + 5 |}];
     bookmarks := [{| Bookmark.url := "q"; Bookmark.time := day 3 |}];
     annotations := [Ranker.sampleAnnotation "a0" "p" (day 10);
                     Ranker.sampleAnnotation "a1" "p" (day 30 + 10);
                     Ranker.sampleAnnotation "a2" "p" (day 30 + 20);
                     Ranker.sampleAnnotation "a3" "r" (day 30 + 15)] |}.

End BlankSearch.

(** ** ContentScriptsBackground
    [src/content-scripts/background/index.ts]. The calls the class makes on
    its collaborators are recorded, in order, as a list of effects. *)

Module ContentScripts.







End ContentScripts.

(** * Part II: properties *)

(** ** List helpers *)

Section ListHelpers.
Context {A : Type}.

Lemma filter_keeps_all (P : A → Prop) `{!∀ x, Decision (P x)} (l : list A) :
  Forall P l → filter P l = l.
Proof.
  induction 1 as [|x l Hx _ IH]; [done|].
  by rewrite filter_cons_True, IH.
Qed.

Lemma filter_drops_all (P : A → Prop) `{!∀ x, Decision (P x)} (l : list A) :
  Forall (λ x, ¬ P x) l → filter P l = [].
Proof.
  induction 1 as [|x l Hx _ IH]; [done|].
  by rewrite filter_cons_False.
Qed.

Lemma filter_ext_elem (P Q : A → Prop)
    `{!∀ x, Decision (P x), !∀ x, Decision (Q x)} (l : list A) :
  (∀ x, x ∈ l → (P x ↔ Q x)) → filter P l = filter Q l.
Proof.
  induction l as [|x l IH]; intros HPQ; [done|].
  rewrite !filter_cons, IH by (intros y Hy; apply HPQ; by right).
  apply decide_ext, HPQ. by left.
Qed.

End ListHelpers.

Lemma filter_of_fmap {A B : Type} (f : A → B) (P : B → Prop)
    `{!∀ y, Decision (P y)} (l : list A) :
  filter P (f <$> l) = f <$> filter (λ x, P (f x)) l.
Proof.
  induction l as [|x l IH]; [done|].
  rewrite fmap_cons, !filter_cons, IH. by case_decide.
Qed.

Lemma foldr_max_base (t a : Z) (l : list Z) :
  foldr Z.max (Z.max t a) l = Z.max t (foldr Z.max a l).
Proof. induction l as [|x l IH]; simpl; [done|]. rewrite IH. lia. Qed.

Lemma foldr_max_perm (a : Z) (l l' : list Z) :
  l ≡ₚ l' → foldr Z.max a l = foldr Z.max a l'.
Proof.
  induction 1 as [|x l l' _ IH|x y l|l1 l2 l3 _ IH1 _ IH2]; simpl;
    [done|by rewrite IH|lia|congruence].
Qed.

Lemma foldr_max_app (a : Z) (l1 l2 : list Z) :
  foldr Z.max (foldr Z.max a l1) l2 = foldr Z.max a (l1 ++ l2).
Proof.
  rewrite (foldr_max_perm a (l1 ++ l2) (l2 ++ l1)) by apply Permutation_app_comm.
  by rewrite foldr_app.
Qed.

Lemma foldr_max_bounds (a : Z) (l : list Z) :
  a ≤ foldr Z.max a l ∧ Forall (λ t, t ≤ foldr Z.max a l) l
  ∧ (foldr Z.max a l = a ∨ foldr Z.max a l ∈ l).
Proof.
  induction l as [|x l (Ha & Hall & Hin)]; simpl.
  - split; [lia|]. split; [constructor|by left].
  - split; [lia|]. split.
    + constructor; [lia|]. eapply Forall_impl; [exact Hall|]. simpl. lia.
    + destruct (Z.max_spec x (foldr Z.max a l)) as [[_ ->]|[_ ->]].
      * destruct Hin as [->|Hin]; [by left|right; by right].
      * right; left.
Qed.

(** ** Properties of [Intersector] *)

Module IntersectorFacts.
Import Intersector.

Lemma intersectStep_filter (a b : list string) :
  intersectStep a b = filter (λ id, id ∈ b) a.
Proof.
  unfold intersectStep. apply list_filter_iff. intros id.
  by rewrite elem_of_list_to_set.
Qed.

Lemma foldl_intersectStep (rest : list (list string)) (a : list string) :
  foldl intersectStep a rest = filter (inAll rest) a.
Proof.
  revert a. induction rest as [|b rest IH]; intros a; simpl.
  - symmetry. apply filter_keeps_all, Forall_forall. intros; constructor.
  - rewrite IH, intersectStep_filter, list_filter_filter.
    apply list_filter_iff. intros id. unfold inAll.
    rewrite Forall_cons. tauto.
Qed.

Lemma intersectResults_cons (a : list string) rest :
  intersectResults (a :: rest) = filter (inAll rest) a.
Proof. apply foldl_intersectStep. Qed.

Lemma elem_of_intersectResults (a : list string) rest id :
  id ∈ intersectResults (a :: rest) ↔ inAll (a :: rest) id.
Proof.
  rewrite intersectResults_cons, list_elem_of_filter.
  unfold inAll. rewrite Forall_cons. tauto.
Qed.

Lemma inAll_first (a : list string) rest id :
  id ∈ a → (inAll (a :: rest) id ↔ inAll rest id).
Proof. unfold inAll. rewrite Forall_cons. tauto. Qed.

Lemma not_inAll_empty before after id : ¬ inAll (before ++ [] :: after) id.
Proof.
  unfold inAll. rewrite Forall_app, Forall_cons.
  intros (_ & Hnil & _). by apply not_elem_of_nil in Hnil.
Qed.

Example intersectResults_sample :
  intersectResults [["a"; "b"; "c"; "a"]; ["c"; "a"]; ["a"; "c"; "d"]]
  = ["a"; "c"; "a"].
Proof. reflexivity. Qed.

(** C2: [intersectResults] of no sets is the empty sequence; of one or more
    sets it is the first set filtered down to the identifiers that occur in
    every input set, hence a subsequence of the first set holding exactly
    the identifiers common to all sets; a single set comes back unchanged. *)
Theorem intersectResults_common_ids :
  intersectResults [] = [] ∧
  (∀ (a : list string) rest,
      intersectResults (a :: rest) = filter (inAll (a :: rest)) a) ∧
  (∀ (a : list string) rest id,
      id ∈ intersectResults (a :: rest) ↔ inAll (a :: rest) id) ∧
  (∀ (a : list string) rest, sublist (intersectResults (a :: rest)) a) ∧
  (∀ a : list string, intersectResults [a] = a).
Proof.
  split; [done|]. split; [|split; [|split]].
  - intros a rest. rewrite intersectResults_cons.
    apply filter_ext_elem. intros x Hx. symmetry. by apply inAll_first.
  - apply elem_of_intersectResults.
  - intros a rest. rewrite intersectResults_cons. apply sublist_filter.
  - done.
Qed.

(** C3: laws of [intersectResults]. Swapping two sets leaves the set of
    resulting identifiers the same; a set intersected with itself is that
    set; and as soon as one of the supplied sets is empty the result is
    empty. *)
Theorem intersectResults_laws :
  (∀ A B : list string,
      list_to_set (intersectResults [A; B])
      =@{gset string} list_to_set (intersectResults [B; A])) ∧
  (∀ A : list string, intersectResults [A; A] = A) ∧
  (∀ before after : list (list string),
      intersectResults (before ++ [] :: after) = []).
Proof.
  split; [|split].
  - intros A B. apply set_eq. intros id.
    rewrite !elem_of_list_to_set, !elem_of_intersectResults.
    unfold inAll. rewrite !Forall_cons. tauto.
  - intros A. rewrite intersectResults_cons.
    apply filter_keeps_all, Forall_forall. intros id Hid.
    unfold inAll. by rewrite Forall_singleton.
  - intros [|a before] after.
    { by rewrite app_nil_l, intersectResults_cons. }
    rewrite <- app_comm_cons, intersectResults_cons.
    apply filter_drops_all, Forall_forall. intros id _.
    apply not_inAll_empty.
Qed.

End IntersectorFacts.

(** ** Properties of [JsString] *)

Module JsStringFacts.
Import JsString.

Lemma lowerChar_idemp c : lowerChar (lowerChar c) = lowerChar c.
Proof. by destruct c as [[] [] [] [] [] [] [] []]. Qed.

Lemma toLocaleLowerCase_idemp s : isLowerCase (toLocaleLowerCase s).
Proof.
  unfold isLowerCase. induction s as [|c s IH]; simpl; [done|].
  by rewrite lowerChar_idemp, IH.
Qed.

Lemma isLowerCase_String c s :
  isLowerCase (String c s) ↔ lowerChar c = c ∧ isLowerCase s.
Proof. unfold isLowerCase. simpl. split; [by intros [= -> ->]|by intros [-> ->]]. Qed.

Lemma split_nonempty sep s : split sep s ≠ [].
Proof.
  destruct s as [|c s]; simpl; [done|].
  destruct (Ascii.eqb c sep); [done|]. by destruct (split sep s).
Qed.

Lemma split_lower sep s : isLowerCase s → Forall isLowerCase (split sep s).
Proof.
  induction s as [|c s IH]; simpl; intros Hs.
  - by constructor.
  - apply isLowerCase_String in Hs as [Hc Hs]. specialize (IH Hs).
    destruct (Ascii.eqb c sep); [by constructor|].
    destruct (split sep s) as [|h t]; inversion IH; subst;
      constructor; try done; by apply isLowerCase_String.
Qed.

Lemma splitWhitespaceFrom_lower gap s :
  isLowerCase s → Forall isLowerCase (splitWhitespaceFrom gap s).
Proof.
  revert gap. induction s as [|c s IH]; simpl; intros gap Hs.
  - by constructor.
  - apply isLowerCase_String in Hs as [Hc Hs].
    destruct (isWhitespace c).
    + destruct gap; [by apply IH|]. constructor; [done|by apply IH].
    + specialize (IH false Hs).
      destruct (splitWhitespaceFrom false s) as [|h t]; inversion IH; subst;
        constructor; try done; by apply isLowerCase_String.
Qed.

Lemma length_trimStart s :
  (String.length (trimStart s) ≤ String.length s)%nat.
Proof.
  induction s as [|c s IH]; simpl; [done|].
  destruct (isWhitespace c); simpl; lia.
Qed.

Lemma length_trimEnd s :
  (String.length (trimEnd s) ≤ String.length s)%nat.
Proof.
  induction s as [|c s IH]; simpl; [done|].
  destruct (trimEnd s); [destruct (isWhitespace c)|]; simpl in *; lia.
Qed.

Lemma trimStart_keeps s :
  (String.length (trimStart s) = String.length s)%nat ↔ startsWithSpace s = false.
Proof.
  destruct s as [|c s]; simpl; [done|].
  pose proof (length_trimStart s).
  destruct (isWhitespace c); simpl; split; intros; try done; lia.
Qed.

Lemma trimStart_id s : startsWithSpace s = false → trimStart s = s.
Proof. destruct s as [|c s]; simpl; [done|]. by intros ->. Qed.

Lemma trimEnd_keeps s :
  (String.length (trimEnd s) = String.length s)%nat ↔ endsWithSpace s = false.
Proof.
  induction s as [|c s IH]; simpl; [done|].
  pose proof (length_trimEnd s) as Hle.
  destruct s as [|d s].
  - simpl. destruct (isWhitespace c); simpl; split; intros; try done; lia.
  - rewrite <- IH. clear IH.
    destruct (trimEnd (String d s)) as [|e t] eqn:Ht.
    + simpl in *. destruct (isWhitespace c); simpl; lia.
    + simpl in *. lia.
Qed.

(** The length test of the tokenizer detects exactly outer white space. *)
Lemma trim_changes_length s :
  (String.length (trim s) =? String.length s)%nat = negb (hasOuterWhitespace s).
Proof.
  unfold trim, hasOuterWhitespace.
  pose proof (length_trimStart s) as H1.
  pose proof (length_trimEnd (trimStart s)) as H2.
  destruct (startsWithSpace s) eqn:Hs; simpl.
  - apply Nat.eqb_neq. intros Heq.
    assert (Hk : String.length (trimStart s) = String.length s) by lia.
    apply trimStart_keeps in Hk. congruence.
  - rewrite (trimStart_id s Hs).
    destruct (endsWithSpace s) eqn:He; simpl.
    + apply Nat.eqb_neq. intros Heq. apply trimEnd_keeps in Heq. congruence.
    + apply Nat.eqb_eq. by apply trimEnd_keeps.
Qed.

Lemma startsWith_spec s prefix :
  startsWith s prefix = true ↔ ∃ post, s = prefix +:+ post.
Proof.
  revert s. induction prefix as [|a prefix IH]; intros s.
  - split; [|by destruct s]. intros _. by exists s.
  - destruct s as [|c s]; simpl.
    + split; [done|]. by intros [post [=]].
    + rewrite andb_true_iff, Ascii.eqb_eq, IH. split.
      * intros [-> [post ->]]. by exists post.
      * intros [post [= -> ->]]. split; [done|]. by exists post.
Qed.

Lemma includes_spec s needle : includes s needle = true ↔ occursIn needle s.
Proof.
  unfold occursIn. induction s as [|c s IH]; cbn [includes].
  - rewrite orb_false_r, startsWith_spec. split.
    + intros [post Hpost]. by exists EmptyString, post.
    + intros ([|??] & post & Hs); [by exists post|done].
  - rewrite orb_true_iff, startsWith_spec, IH. split.
    + intros [[post ->]|(pre & post & ->)].
      * by exists EmptyString, post.
      * by exists (String c pre), post.
    + intros ([|c' pre] & post & Hs).
      * left. by exists post.
      * right. injection Hs as -> ->. by exists pre, post.
Qed.

Lemma elem_of_setAdd x members y :
  y ∈ setAdd x members ↔ y = x ∨ y ∈ members.
Proof.
  unfold setAdd. case_decide.
  - split; [by right|]. by intros [->|].
  - rewrite elem_of_app, list_elem_of_singleton. tauto.
Qed.

Lemma NoDup_setAdd x members : NoDup members → NoDup (setAdd x members).
Proof.
  unfold setAdd. case_decide; [done|]. intros Hnd.
  apply NoDup_app. split; [done|]. split; [|apply NoDup_singleton].
  intros y Hy ->%list_elem_of_singleton. done.
Qed.

Lemma elem_of_foldl_setAdd xs members y :
  y ∈ foldl (λ acc x, setAdd x acc) members xs ↔ y ∈ members ∨ y ∈ xs.
Proof.
  revert members. induction xs as [|x xs IH]; intros members; simpl.
  - rewrite elem_of_nil. tauto.
  - rewrite IH, elem_of_setAdd, elem_of_cons. tauto.
Qed.

Lemma NoDup_foldl_setAdd xs members :
  NoDup members → NoDup (foldl (λ acc x, setAdd x acc) members xs).
Proof.
  revert members. induction xs as [|x xs IH]; intros members Hnd; simpl;
    [done|]. by apply IH, NoDup_setAdd.
Qed.

End JsStringFacts.

(** ** Properties of [Tokenizer] *)

Module TokenizerFacts.
Import JsString JsStringFacts Tokenizer.

Lemma wasNotDoubleQuoted_iff term query :
  wasNotDoubleQuoted term query = true
  ↔ hasOuterWhitespace term = true ∨ term = query.
Proof.
  unfold wasNotDoubleQuoted.
  rewrite trim_changes_length, negb_involutive, orb_true_iff.
  by rewrite bool_decide_eq_true.
Qed.

Lemma fragments_lower query : Forall isLowerCase (fragments query).
Proof.
  unfold fragments, filterBoolean.
  apply Forall_forall. intros f [_ Hf]%list_elem_of_filter.
  revert f Hf. apply Forall_forall, split_lower, toLocaleLowerCase_idemp.
Qed.

Lemma subTermsOf_lower f : isLowerCase f → Forall isLowerCase (subTermsOf f).
Proof.
  intros Hf. unfold subTermsOf, filterBoolean.
  apply Forall_forall. intros w [_ Hw]%list_elem_of_filter.
  revert w Hw. by apply Forall_forall, splitWhitespaceFrom_lower.
Qed.

Section FoldFragments.
Variable query : string.

Lemma tokenizeFragment_terms frags sets t :
  t ∈ (foldl (tokenizeFragment query) sets frags).1
  ↔ t ∈ sets.1
    ∨ ∃ f, f ∈ frags ∧ wasNotDoubleQuoted f query = true ∧ t ∈ subTermsOf f.
Proof.
  revert sets. induction frags as [|f frags IH]; intros sets; simpl.
  - split; [by left|]. intros [?|(f & Hf & _)]; [done|].
    by apply elem_of_nil in Hf.
  - rewrite IH. unfold tokenizeFragment at 1.
    destruct (wasNotDoubleQuoted f query) eqn:Hq; simpl.
    + rewrite elem_of_foldl_setAdd. split.
      * intros [[?|?]|(g & Hg & ?)]; [by left|right..].
        -- exists f. split; [left|done].
        -- exists g. split; [by right|done].
      * intros [?|(g & Hg & Hgq & Ht)]; [by left; left|].
        apply elem_of_cons in Hg as [->|Hg]; [by left; right|].
        right. by exists g.
    + split.
      * intros [?|(g & Hg & ?)]; [by left|right].
        exists g. split; [by right|done].
      * intros [?|(g & Hg & Hgq & Ht)]; [by left|].
        apply elem_of_cons in Hg as [->|Hg]; [congruence|].
        right. by exists g.
Qed.

Lemma tokenizeFragment_phrases frags sets p :
  p ∈ (foldl (tokenizeFragment query) sets frags).2
  ↔ p ∈ sets.2 ∨ (p ∈ frags ∧ wasNotDoubleQuoted p query = false).
Proof.
  revert sets. induction frags as [|f frags IH]; intros sets; simpl.
  - split; [by left|]. intros [?|[Hp _]]; [done|]. by apply elem_of_nil in Hp.
  - rewrite IH. unfold tokenizeFragment at 1.
    destruct (wasNotDoubleQuoted f query) eqn:Hq; simpl.
    + rewrite elem_of_cons. split; [tauto|].
      intros [?|[[->|?] ?]]; [tauto|congruence|tauto].
    + rewrite elem_of_setAdd, elem_of_cons. split; [|tauto].
      intros [[->|?]|?]; tauto.
Qed.

Lemma tokenizeFragment_NoDup frags sets :
  NoDup sets.1 → NoDup sets.2 →
  NoDup (foldl (tokenizeFragment query) sets frags).1
  ∧ NoDup (foldl (tokenizeFragment query) sets frags).2.
Proof.
  revert sets. induction frags as [|f frags IH]; intros sets H1 H2; simpl;
    [done|].
  apply IH; unfold tokenizeFragment;
    destruct (wasNotDoubleQuoted f query); simpl; try done.
  - by apply NoDup_foldl_setAdd.
  - by apply NoDup_setAdd.
Qed.

End FoldFragments.

Lemma elem_of_terms query t :
  t ∈ terms (splitQueryIntoTerms query)
  ↔ ∃ f, f ∈ fragments query ∧ wasNotDoubleQuoted f query = true
         ∧ t ∈ subTermsOf f.
Proof.
  unfold splitQueryIntoTerms; simpl. rewrite tokenizeFragment_terms; simpl.
  rewrite elem_of_nil. tauto.
Qed.

Lemma elem_of_phrases query p :
  p ∈ phrases (splitQueryIntoTerms query)
  ↔ p ∈ fragments query ∧ wasNotDoubleQuoted p query = false.
Proof.
  unfold splitQueryIntoTerms; simpl. rewrite tokenizeFragment_phrases; simpl.
  rewrite elem_of_nil. tauto.
Qed.

Lemma phrases_lower query p :
  p ∈ phrases (splitQueryIntoTerms query) → isLowerCase p.
Proof.
  intros [Hp _]%elem_of_phrases. revert p Hp.
  apply Forall_forall, fragments_lower.
Qed.

(** A fragment that equals the query is never a phrase; a fragment that
    differs from the lower-cased query differs from the query. *)
Lemma fragment_not_query query f :
  f ∈ fragments query → f ≠ toLocaleLowerCase query → f ≠ query.
Proof.
  intros Hf Hne ->. apply Hne. symmetry.
  pose proof (fragments_lower query) as Hlow.
  by apply (proj1 (Forall_forall _ _) Hlow).
Qed.

(** C4, as the claim states it, fails: the fragment between the quotes of
    the query [DQ hi there DQ] padded with a blank on either side lies inside
    quotes, yet it is split into the terms [hi] and [there] and no phrase
    is produced. *)
Lemma splitQueryIntoTerms_not_by_quote_position :
  ¬ tokenizesByQuotePosition (quoted " hi there ").
Proof.
  intros [_ Hp]. destruct (Hp " hi there ") as [_ Hin].
  assert (Hinside : " hi there " ∈ insideQuotes (quoted " hi there "))
    by (vm_compute; left).
  specialize (Hin Hinside). vm_compute in Hin. by apply elem_of_nil in Hin.
Qed.

(** C4 (amended): the tokenizer lower-cases the query, splits it on the
    double quote and drops the empty fragments. A fragment that begins or
    ends with white space, or that equals the query, is split on white space
    and its words are terms; a fragment without outer white space that
    differs from the lower-cased query is a phrase, kept whole. Nothing else
    is produced: every term is a word of a fragment that begins or ends with
    white space or is the whole lower-cased query, so the words of a
    fragment that is kept as a phrase are not made terms on its account; and
    every phrase is a fragment without outer white space that differs from
    the query, so a fragment that is split is never also kept as a phrase.
    Neither collection repeats an element, and all are lower case. *)
Theorem splitQueryIntoTerms_by_fragment (query : string) :
  let r := splitQueryIntoTerms query in
  (∀ f w, f ∈ fragments query →
          hasOuterWhitespace f = true ∨ f = query →
          w ∈ subTermsOf f → w ∈ terms r) ∧
  (∀ f, f ∈ fragments query →
        hasOuterWhitespace f = false → f ≠ toLocaleLowerCase query →
        f ∈ phrases r) ∧
  (∀ t, t ∈ terms r →
        ∃ f, f ∈ fragments query ∧ t ∈ subTermsOf f ∧
             (hasOuterWhitespace f = true ∨ f = toLocaleLowerCase query)) ∧
  (∀ p, p ∈ phrases r →
        p ∈ fragments query ∧ hasOuterWhitespace p = false ∧ p ≠ query) ∧
  (∀ f, f ∈ fragments query →
        hasOuterWhitespace f = true ∨ f = query → f ∉ phrases r) ∧
  NoDup (terms r) ∧ NoDup (phrases r) ∧
  Forall isLowerCase (terms r) ∧ Forall isLowerCase (phrases r).
Proof.
  intros r. subst r. split_and!.
  - intros f w Hf Hq Hw. apply elem_of_terms. exists f.
    by rewrite wasNotDoubleQuoted_iff.
  - intros f Hf Hws Hne. apply elem_of_phrases. split; [done|].
    apply not_true_is_false. rewrite wasNotDoubleQuoted_iff.
    intros [?|?]; [congruence|]. by eapply fragment_not_query.
  - intros t (f & Hf & Hq & Ht)%elem_of_terms. exists f.
    split_and!; [done..|].
    apply wasNotDoubleQuoted_iff in Hq as [?|Heq]; [by left|right].
    destruct (decide (f = toLocaleLowerCase query)) as [|Hne]; [done|].
    by destruct (fragment_not_query query f Hf Hne).
  - intros p [Hp Hq]%elem_of_phrases.
    apply not_true_iff_false in Hq. rewrite wasNotDoubleQuoted_iff in Hq.
    split_and!; [done| |tauto].
    apply not_true_is_false. tauto.
  - intros f Hf Hq [_ Hn]%elem_of_phrases.
    apply wasNotDoubleQuoted_iff in Hq. congruence.
  - apply (tokenizeFragment_NoDup query (fragments query) ([], []));
      apply NoDup_nil_2.
  - apply (tokenizeFragment_NoDup query (fragments query) ([], []));
      apply NoDup_nil_2.
  - apply Forall_forall. intros t (f & Hf & _ & Ht)%elem_of_terms.
    revert t Ht. apply Forall_forall, subTermsOf_lower.
    revert f Hf. apply Forall_forall, fragments_lower.
  - apply Forall_forall. intros p. apply phrases_lower.
Qed.

(** An unquoted query holding a capital letter: the lower-cased fragment is
    compared with the query as typed, so it is not recognised as the whole
    query and becomes a phrase. *)
Example splitQueryIntoTerms_capitalised :
  splitQueryIntoTerms "Foo Bar" = {| terms := []; phrases := ["foo bar"] |}.
Proof. reflexivity. Qed.

Example splitQueryIntoTerms_abutting :
  splitQueryIntoTerms ("say" +:+ quoted "hi")
  = {| terms := []; phrases := ["say"; "hi"] |}.
Proof. reflexivity. Qed.

(** C5: the query [foo DQ bar baz DQ qux] yields the terms [foo] and [qux]
    and the phrase [bar baz], also when typed with capitals; the empty query
    yields no term and no phrase. *)
Theorem splitQueryIntoTerms_examples :
  splitQueryIntoTerms ("foo " +:+ quoted "bar baz" +:+ " qux")
  = {| terms := ["foo"; "qux"]; phrases := ["bar baz"] |} ∧
  splitQueryIntoTerms ("FOO " +:+ quoted "Bar Baz" +:+ " Qux")
  = {| terms := ["foo"; "qux"]; phrases := ["bar baz"] |} ∧
  splitQueryIntoTerms "" = {| terms := []; phrases := [] |}.
Proof. repeat split. Qed.

End TokenizerFacts.

(** ** Properties of [JsArray] *)

Module JsArrayFacts.
Import JsArray.

Section SortFacts.
Context {A : Type}.

Lemma insertSorted_perm (cmp : A → A → Z) x l :
  insertSorted cmp x l ≡ₚ x :: l.
Proof.
  induction l as [|y l IH]; simpl; [done|].
  destruct (cmp x y <=? 0); [done|]. by rewrite IH, Permutation_swap.
Qed.

Lemma sort_perm (cmp : A → A → Z) l : sort cmp l ≡ₚ l.
Proof.
  induction l as [|x l IH]; simpl; [done|].
  by rewrite insertSorted_perm, IH.
Qed.

Variable key : A → Z.

Local Abbreviation byKeyDescending := (byKeyDescending key).
Local Abbreviation descending := (descending key).

Lemma insertSorted_descending x l :
  descending l → descending (insertSorted byKeyDescending x l).
Proof.
  unfold descending, byKeyDescending.
  induction 1 as [|y l Hl IH Hy]; simpl.
  - repeat constructor.
  - destruct (Z.leb_spec (key y - key x) 0).
    + constructor; [by constructor|].
      constructor; [lia|].
      eapply Forall_impl; [exact Hy|]. simpl. intros; lia.
    + constructor; [done|].
      rewrite insertSorted_perm. constructor; [lia|done].
Qed.

Lemma sort_descending l : descending (sort byKeyDescending l).
Proof.
  induction l as [|x l IH]; simpl; [constructor|].
  by apply insertSorted_descending.
Qed.

Lemma insertSorted_filter_key k x l :
  filter (λ a, key a = k) (insertSorted byKeyDescending x l)
  = filter (λ a, key a = k) (x :: l).
Proof.
  unfold byKeyDescending.
  induction l as [|y l IH]; simpl; [done|].
  destruct (Z.leb_spec (key y - key x) 0); [done|].
  rewrite filter_cons, IH, !filter_cons.
  repeat case_decide; try done; lia.
Qed.

(** Stability: among the elements of one key the input order is kept. *)
Lemma sort_stable k l :
  filter (λ a, key a = k) (sort byKeyDescending l)
  = filter (λ a, key a = k) l.
Proof.
  induction l as [|x l IH]; simpl; [done|].
  by rewrite insertSorted_filter_key, !filter_cons, IH.
Qed.

Lemma descending_filters_eq l1 l2 :
  descending l1 → descending l2 →
  (∀ k, filter (λ a, key a = k) l1 = filter (λ a, key a = k) l2) →
  l1 = l2.
Proof.
  unfold descending. intros H1. revert l2.
  induction H1 as [|x l1 Hl1 IH Hx]; intros l2 H2 Heq.
  - destruct l2 as [|y l2]; [done|].
    specialize (Heq (key y)). by rewrite filter_cons_True in Heq.
  - destruct H2 as [|y l2 Hl2 Hy].
    { specialize (Heq (key x)). by rewrite filter_cons_True in Heq. }
    assert (Hxy : key x ≤ key y).
    { pose proof (Heq (key x)) as E. rewrite filter_cons_True in E by done.
      assert (Hin : x ∈ filter (λ a, key a = key x) (y :: l2))
        by (rewrite <- E; left).
      apply list_elem_of_filter in Hin as [_ Hin].
      apply elem_of_cons in Hin as [->|Hin]; [lia|].
      by apply (proj1 (Forall_forall _ _) Hy). }
    assert (Hyx : key y ≤ key x).
    { pose proof (Heq (key y)) as E.
      rewrite (filter_cons_True _ y) in E by done.
      assert (Hin : y ∈ filter (λ a, key a = key y) (x :: l1))
        by (rewrite E; left).
      apply list_elem_of_filter in Hin as [_ Hin].
      apply elem_of_cons in Hin as [->|Hin]; [lia|].
      by apply (proj1 (Forall_forall _ _) Hx). }
    assert (x = y) as <-.
    { pose proof (Heq (key x)) as E.
      rewrite !filter_cons_True in E by lia. congruence. }
    f_equal. apply IH; [done|]. intros k. specialize (Heq k).
    rewrite !filter_cons in Heq. case_decide; congruence.
Qed.

(** Any stable arrangement in descending key order is the one [sort]
    computes. *)
Lemma sort_characterised l l' :
  descending l' →
  (∀ k, filter (λ a, key a = k) l' = filter (λ a, key a = k) l) →
  l' = sort byKeyDescending l.
Proof.
  intros Hd Hst. apply descending_filters_eq; [done|apply sort_descending|].
  intros k. by rewrite sort_stable.
Qed.

End SortFacts.

End JsArrayFacts.

(** ** Properties of [Ranker] *)

Module RankerFacts.
Import Ranker.

Lemma newestEdit_newestFirst a rest :
  newestFirst (a :: rest) → newestEdit (a :: rest) = Annotation.lastEdited a.
Proof.
  unfold newestFirst. intros H. apply StronglySorted_inv in H as [_ Hall].
  simpl. induction Hall as [|b rest Hb _ IH]; simpl; [done|].
  rewrite IH. lia.
Qed.

(** C8: the ranked sequence holds the pairs of the input, in descending
    order of activity timestamp, pairs of equal activity timestamp in their
    input order. The activity timestamp is the larger of the page timestamp
    and the edit time of the first annotation (0 without annotations), which
    for a list kept newest first is the newest edit time. Entries with
    activity timestamps 100, 50, 200 come out as 200, 100, 50. *)
Theorem sortUnifiedBlankSearchResult_ranks
    (resultDataByPage : list (string * PageResultData)) :
  let ranked := sortUnifiedBlankSearchResult resultDataByPage in
  ranked ≡ₚ resultDataByPage ∧
  StronglySorted (λ x y, activityTimestamp y.2 ≤ activityTimestamp x.2) ranked ∧
  (∀ ts, filter (λ x, activityTimestamp x.2 = ts) ranked
         = filter (λ x, activityTimestamp x.2 = ts) resultDataByPage) ∧
  (∀ e, newestFirst (annotations e) →
        activityTimestamp e
        = Z.max (latestPageTimestamp e) (newestEdit (annotations e))) ∧
  (∀ p1 p2 p3 : string,
      sortUnifiedBlankSearchResult [(p1, entry 100); (p2, entry 50); (p3, entry 200)]
      = [(p3, entry 200); (p1, entry 100); (p2, entry 50)]).
Proof.
  intros ranked. subst ranked. unfold sortUnifiedBlankSearchResult. split_and!.
  - apply JsArrayFacts.sort_perm.
  - apply (JsArrayFacts.sort_descending (λ x, activityTimestamp x.2)).
  - intros ts.
    apply (JsArrayFacts.sort_stable (λ x, activityTimestamp x.2)).
  - intros [ts [|a rest]] Hsorted; [done|].
    unfold activityTimestamp. cbn [latestPageTimestamp annotations] in *.
    by rewrite (newestEdit_newestFirst a rest Hsorted).
  - done.
Qed.

Lemma sortUnifiedBlankSearchResult_ranks_witness :
  activityTimestamp sampleEntry
  = Z.max (latestPageTimestamp sampleEntry) (newestEdit (annotations sampleEntry)).
Proof.
  pose proof (sortUnifiedBlankSearchResult_ranks []) as H.
  destruct H as (_ & _ & _ & H & _). apply H.
  repeat constructor. simpl. lia.
Defined.

Lemma lookup_spread (h : heap) src xs :
  h !! src = Some xs →
  ∃ dst, spread src h = Some (dst, <[dst := xs]> h) ∧ h !! dst = None.
Proof.
  intros Hsrc. unfold spread. rewrite Hsrc. eexists. split; [done|].
  apply not_elem_of_dom, is_fresh.
Qed.

(** Sorting in place, without the copy, does change the array passed in. *)
Lemma sortInPlace_mutates cmp (h : heap) r xs :
  h !! r = Some xs →
  ∃ h', sortInPlace cmp r h = Some (r, h') ∧ h' !! r = Some (JsArray.sort cmp xs).
Proof.
  intros Hr. unfold sortInPlace. rewrite Hr. eexists. split; [done|].
  apply lookup_insert_eq.
Qed.

(** C10: the call leaves the collection passed in as it was. Run on a heap
    where [src] holds the pairs [xs], it returns a reference other than
    [src] to an array holding the ranked pairs, [src] still holds [xs], and
    no other array of the heap has changed. *)
Theorem sortUnifiedBlankSearchResult_keeps_argument
    (h : heap) (src : nat) (xs : list (string * PageResultData)) :
  h !! src = Some xs →
  ∃ dst h',
    sortUnifiedBlankSearchResultOnHeap src h = Some (dst, h') ∧
    dst ≠ src ∧
    h' !! src = Some xs ∧
    h' !! dst = Some (sortUnifiedBlankSearchResult xs) ∧
    ∀ r, r ≠ dst → h' !! r = h !! r.
Proof.
  intros Hsrc.
  destruct (lookup_spread h src xs Hsrc) as (dst & Hspread & Hfresh).
  assert (Hne : dst ≠ src) by congruence.
  exists dst, (<[dst := sortUnifiedBlankSearchResult xs]> (<[dst := xs]> h)).
  unfold sortUnifiedBlankSearchResultOnHeap. rewrite Hspread.
  unfold sortInPlace. rewrite lookup_insert_eq. split_and!; try done.
  - by rewrite !lookup_insert_ne.
  - apply lookup_insert_eq.
  - intros r Hr. by rewrite !lookup_insert_ne.
Qed.

Lemma sortUnifiedBlankSearchResult_keeps_argument_witness :
  ∃ dst h',
    sortUnifiedBlankSearchResultOnHeap 0 exampleHeap = Some (dst, h') ∧
    dst ≠ 0%nat ∧
    h' !! 0%nat = Some [("p1", entry 100); ("p2", entry 50); ("p3", entry 200)] ∧
    h' !! dst
    = Some (sortUnifiedBlankSearchResult
              [("p1", entry 100); ("p2", entry 50); ("p3", entry 200)]) ∧
    ∀ r, r ≠ dst → h' !! r = exampleHeap !! r.
Proof.
  apply (sortUnifiedBlankSearchResult_keeps_argument exampleHeap 0).
  reflexivity.
Defined.

End RankerFacts.

(** ** Properties of [TermIndexQuery] *)

Module TermIndexQueryFacts.
Import JsString JsStringFacts Intersector TermIndexQuery.

Lemma maxWithZero_nil : maxWithZero [] = 0.
Proof. done. Qed.

(** On non-negative times the larger of 0 and all of them is their maximum. *)
Lemma maxWithZero_maximum (l : list Z) :
  l ≠ [] → Forall (λ t, 0 ≤ t) l → isMaximumOf (maxWithZero l) l.
Proof.
  intros Hne Hpos. unfold isMaximumOf, maxWithZero.
  destruct (foldr_max_bounds 0 l) as (H0 & Hall & [Heq|Hin]); [|done].
  split; [|done]. rewrite Heq in *.
  destruct l as [|x l]; [done|].
  apply Forall_cons in Hpos as [Hx _]. apply Forall_cons in Hall as [Hx' _].
  assert (x = 0) as -> by lia. left.
Qed.

Lemma lookup_trackLatestTimestamp (rows : list (string * Z))
    (m : gmap string Z) (pageUrl : string) :
  default 0 (foldl trackLatestTimestamp m rows !! pageUrl)
  = foldr Z.max (default 0 (m !! pageUrl))
          (snd <$> filter (λ row, row.1 = pageUrl) rows).
Proof.
  revert m. induction rows as [|[u t] rows IH]; intros m; simpl; [done|].
  rewrite IH, filter_cons. unfold trackLatestTimestamp; simpl.
  case_decide as Hu; simpl in Hu.
  - subst u. rewrite lookup_insert_eq, fmap_cons; simpl.
    apply foldr_max_base.
  - by rewrite lookup_insert_ne.
Qed.

Lemma queryTimestamps_of_page (table : list (string * Z))
    (matchingIds : list string) (pageUrl : string) :
  pageUrl ∈ matchingIds →
  snd <$> filter (λ row, row.1 = pageUrl) (queryTimestamps table matchingIds)
  ≡ₚ snd <$> filter (λ row, row.1 = pageUrl) table.
Proof.
  intros Hin. unfold queryTimestamps.
  rewrite JsArrayFacts.sort_perm, list_filter_filter.
  erewrite list_filter_iff; [done|]. intros [u t]; simpl.
  split; [tauto|]. by intros ->.
Qed.

Lemma visitRows_of_page st pageUrl :
  snd <$> filter (λ row, row.1 = pageUrl) (visitRows st)
  = Visit.time <$> filter (λ v, Visit.url v = pageUrl) (visits st).
Proof.
  unfold visitRows. rewrite filter_of_fmap, <- list_fmap_compose. done.
Qed.

Lemma bookmarkRows_of_page st pageUrl :
  snd <$> filter (λ row, row.1 = pageUrl) (bookmarkRows st)
  = Bookmark.time <$> filter (λ b, Bookmark.url b = pageUrl) (bookmarks st).
Proof.
  unfold bookmarkRows. rewrite filter_of_fmap, <- list_fmap_compose. done.
Qed.

(** What [queryPagesByTerms] returns: the surviving identifiers, each with
    the larger of 0 and the times of its Visit and Bookmark rows. *)
Lemma queryPagesByTerms_eq st startsWithMatching terms phrases :
  queryPagesByTerms st startsWithMatching terms phrases
  = (λ id, {| id := id;
              latestTimestamp := maxWithZero (timesOfPage st id) |})
      <$> matchingPageIds st startsWithMatching terms phrases.
Proof.
  unfold queryPagesByTerms.
  set (ids := matchingPageIds st startsWithMatching terms phrases).
  apply Forall_fmap_ext_1, Forall_forall. intros pageUrl Hin. f_equal.
  rewrite !lookup_trackLatestTimestamp, lookup_empty; simpl.
  rewrite foldr_max_app.
  unfold maxWithZero, timesOfPage. apply foldr_max_perm.
  rewrite !queryTimestamps_of_page by done.
  by rewrite visitRows_of_page, bookmarkRows_of_page.
Qed.

Lemma textIncludes_spec text phrase :
  isLowerCase phrase → (textIncludes text phrase ↔ textContains text phrase).
Proof.
  unfold isLowerCase, textContains. intros ->.
  destruct text as [t|]; simpl.
  - rewrite Is_true_true, includes_spec. split; [by exists t|].
    by intros (? & [= <-] & ?).
  - split; [done|]. by intros (? & [=] & _).
Qed.

(** C6: [queryPagesByTerms] returns every identifier that survives the
    intersection, in that order, each paired with the larger of 0 and the
    [time] values of the Visit and Bookmark rows of that page: 0 when the
    page has no such row, and the maximum of the [time] values when there are
    rows and, as epoch timestamps are, none is negative. *)
Theorem queryPagesByTerms_latestTimestamp (storageManager : Storage)
    (startsWithMatching : bool) (terms phrases : list string) :
  let result :=
    queryPagesByTerms storageManager startsWithMatching terms phrases in
  id <$> result
  = matchingPageIds storageManager startsWithMatching terms phrases ∧
  (∀ r, r ∈ result →
        latestTimestamp r = maxWithZero (timesOfPage storageManager (id r))) ∧
  (∀ r, r ∈ result → timesOfPage storageManager (id r) = [] →
        latestTimestamp r = 0) ∧
  (∀ r, r ∈ result → timesOfPage storageManager (id r) ≠ [] →
        Forall (λ t, 0 ≤ t) (timesOfPage storageManager (id r)) →
        isMaximumOf (latestTimestamp r) (timesOfPage storageManager (id r))).
Proof.
  intros result. subst result. rewrite queryPagesByTerms_eq.
  assert (Hr : ∀ r,
    r ∈ (λ id, {| id := id;
                  latestTimestamp := maxWithZero (timesOfPage storageManager id) |})
          <$> matchingPageIds storageManager startsWithMatching terms phrases →
    latestTimestamp r = maxWithZero (timesOfPage storageManager (id r))).
  { by intros r (pageUrl & -> & _)%list_elem_of_fmap. }
  split_and!.
  - rewrite <- list_fmap_compose. apply list_fmap_id.
  - done.
  - intros r Hin Hnil. by rewrite (Hr r Hin), Hnil.
  - intros r Hin Hne Hpos. rewrite (Hr r Hin). by apply maxWithZero_maximum.
Qed.

(** C7: for a phrase that the tokenizer produced, the candidate keys of the
    phrase are the keys of the rows whose raw text holds the phrase, case
    ignored: the comment or the highlighted body of an annotation, the body
    text of a page. They are found by scanning the rows: two tables that
    agree on keys and text give the same candidates, whatever their term
    indexes hold. With this one phrase and no term, these candidates are
    what the two queries intersect. *)
Theorem phrase_candidates_by_scan (query phrase : string) :
  phrase ∈ Tokenizer.phrases (Tokenizer.splitQueryIntoTerms query) →
  (∀ table key,
      key ∈ annotationPhraseKeys table phrase
      ↔ ∃ a, a ∈ table ∧ Annotation.url a = key
             ∧ (textContains (Annotation.comment a) phrase
                ∨ textContains (Annotation.body a) phrase)) ∧
  (∀ table key,
      key ∈ pagePhraseKeys table phrase
      ↔ ∃ p, p ∈ table ∧ Page.url p = key
             ∧ textContains (Page.text p) phrase) ∧
  (∀ table table', Forall2 sameAnnotationText table table' →
      annotationPhraseKeys table phrase = annotationPhraseKeys table' phrase) ∧
  (∀ table table', Forall2 samePageText table table' →
      pagePhraseKeys table phrase = pagePhraseKeys table' phrase) ∧
  (∀ st, queryAnnotationsByTerms st [] [phrase]
         = bulkGet (annotations st)
                   (annotationPhraseKeys (annotations st) phrase)) ∧
  (∀ st startsWithMatching,
      matchingPageIds st startsWithMatching [] [phrase]
      = pagePhraseKeys (pages st) phrase).
Proof.
  intros Hlow%TokenizerFacts.phrases_lower. split_and!; [| | | |done..].
  - intros table key. unfold annotationPhraseKeys.
    rewrite list_elem_of_fmap. setoid_rewrite list_elem_of_filter.
    setoid_rewrite orb_True.
    setoid_rewrite (textIncludes_spec _ phrase Hlow).
    split; [intros (a & -> & Hm & Ha)|intros (a & Ha & <- & Hm)];
      exists a; intuition.
  - intros table key. unfold pagePhraseKeys.
    rewrite list_elem_of_fmap. setoid_rewrite list_elem_of_filter.
    setoid_rewrite (textIncludes_spec _ phrase Hlow).
    split; [intros (a & -> & Hm & Ha)|intros (a & Ha & <- & Hm)];
      exists a; intuition.
  - intros table table' Hsame. unfold annotationPhraseKeys.
    induction Hsame as [|a b table table' (Hu & Hc & Hb) _ IH]; [done|].
    rewrite !filter_cons, Hc, Hb.
    case_decide; rewrite ?fmap_cons, IH; congruence.
  - intros table table' Hsame. unfold pagePhraseKeys.
    induction Hsame as [|a b table table' (Hu & Ht) _ IH]; [done|].
    rewrite !filter_cons, Ht.
    case_decide; rewrite ?fmap_cons, IH; congruence.
Qed.

Example queryPagesByTerms_sample :
  queryPagesByTerms sampleStorage false ["foo"] []
  = [{| id := "p"; latestTimestamp := 30 |};
     {| id := "q"; latestTimestamp := 0 |}].
Proof. reflexivity. Qed.

Lemma queryPagesByTerms_latestTimestamp_witness :
  isMaximumOf 30 (timesOfPage sampleStorage "p").
Proof.
  pose proof (queryPagesByTerms_latestTimestamp sampleStorage false ["foo"] [])
    as H.
  destruct H as (_ & _ & _ & H).
  apply (H {| id := "p"; latestTimestamp := 30 |}).
  - left.
  - discriminate.
  - repeat constructor; discriminate.
Defined.

Lemma phrase_candidates_by_scan_witness :
  "p" ∈ pagePhraseKeys (pages sampleStorage) "bar baz"
  ↔ ∃ p, p ∈ pages sampleStorage ∧ Page.url p = "p"
         ∧ textContains (Page.text p) "bar baz".
Proof.
  assert (H : "bar baz"
              ∈ Tokenizer.phrases
                  (Tokenizer.splitQueryIntoTerms (Tokenizer.quoted "Bar Baz")))
    by left.
  apply (phrase_candidates_by_scan _ _ H).
Defined.

Example pagePhraseKeys_sample :
  pagePhraseKeys (pages sampleStorage) "bar baz" = ["p"].
Proof. reflexivity. Qed.

End TermIndexQueryFacts.

(** ** Properties of [BlankSearch] *)

Module BlankSearchFacts.
Import TermIndexQuery BlankSearch.

Section Aggregation.
Variable selected : list Annotation.t.

Local Abbreviation wellFormed := (wellFormedIn selected).





End Aggregation.



(** One window over the whole of the store: each page once, with all its
    annotations, newest first. *)
Example blankSearchEntries_whole_range :
  blankSearchEntries pagedStorage 0 (day 31)
  = {[ "p" := {| annotIds := ["a2"; "a1"; "a0"]; timestamp := day 30 + 20 |};
       "q" := {| annotIds := []; timestamp := day 3 |};
       "r" := {| annotIds := ["a3"]; timestamp := day 30 + 15 |} ]}.
Proof. vm_compute. reflexivity. Qed.

(** The window of the newest day: the two annotations of [p] edited on that
    day, newest first. *)
Example blankSearchEntries_last_day :
  blankSearchEntries pagedStorage (day 30) (day 31)
  = {[ "p" := {| annotIds := ["a2"; "a1"]; timestamp := day 30 + 20 |};
       "r" := {| annotIds := ["a3"]; timestamp := day 30 + 15 |} ]}.
Proof. vm_compute. reflexivity. Qed.

(** The scenario of section 8: page [P] bookmarked at 10 and annotated at
    30, in a window that ends at 31. *)
Example blankSearchEntries_scenario :
  blankSearchEntries
    {| pages := []; visits := [];
       bookmarks := [{| Bookmark.url := "P"; Bookmark.time := 10 |}];
       annotations := [Ranker.sampleAnnotation "annotationId" "P" 30] |}
    0 31
  = {[ "P" := {| annotIds := ["annotationId"]; timestamp := 30 |} ]}.
Proof. vm_compute. reflexivity. Qed.


End BlankSearchFacts.

(** ** Further properties of [Intersector] *)

Module IntersectorComposition.
Import Intersector IntersectorFacts.

Lemma inAll_app sets sets' id :
  inAll (sets ++ sets') id ↔ inAll sets id ∧ inAll sets' id.
Proof. unfold inAll. apply Forall_app. Qed.

(** Intersecting in two stages is intersecting at once: the result of a
    first family of sets, intersected with further sets, is the result of
    the whole family; so further sets only narrow the result, which stays a
    subsequence of the earlier one. *)
Theorem intersectResults_stages (a : list string)
    (rest more : list (list string)) :
  intersectResults (intersectResults (a :: rest) :: more)
  = intersectResults (a :: rest ++ more) ∧
  sublist (intersectResults (a :: rest ++ more)) (intersectResults (a :: rest)).
Proof.
  assert (Heq : intersectResults (intersectResults (a :: rest) :: more)
                = intersectResults (a :: rest ++ more)).
  { simpl. by rewrite foldl_app. }
  split; [done|]. rewrite <- Heq, intersectResults_cons. apply sublist_filter.
Qed.

(** The sets after the first matter only as sets: putting them in another
    order, or replacing each by a list with the same members, leaves the
    result unchanged. *)
Theorem intersectResults_rest_as_sets (a : list string)
    (rest rest' : list (list string)) :
  (rest ≡ₚ rest' → intersectResults (a :: rest) = intersectResults (a :: rest')) ∧
  (Forall2 (λ s s', list_to_set s =@{gset string} list_to_set s') rest rest' →
   intersectResults (a :: rest) = intersectResults (a :: rest')).
Proof.
  split; intros H; rewrite !intersectResults_cons; apply list_filter_iff;
    intros id; unfold inAll.
  - by rewrite H.
  - induction H as [|s s' rest rest' Hs _ IH]; [done|].
    rewrite !Forall_cons, IH.
    assert (id ∈ s ↔ id ∈ s') as ->; [|done].
    by rewrite <- !(elem_of_list_to_set (C:=gset string)), Hs.
Qed.

Lemma intersectResults_rest_as_sets_witness :
  intersectResults [["a"; "b"; "c"]; ["c"; "b"]; ["b"; "z"]]
  = intersectResults [["a"; "b"; "c"]; ["b"; "z"]; ["c"; "b"]].
Proof.
  apply (proj1 (intersectResults_rest_as_sets ["a"; "b"; "c"]
                  [["c"; "b"]; ["b"; "z"]] [["b"; "z"]; ["c"; "b"]])).
  apply Permutation_swap.
Defined.

(** The result is never longer than the first set, and holds no identifier
    twice when the first set holds none twice. *)
Theorem intersectResults_size (a : list string) (rest : list (list string)) :
  (length (intersectResults (a :: rest)) ≤ length a)%nat ∧
  (NoDup a → NoDup (intersectResults (a :: rest))).
Proof.
  rewrite intersectResults_cons. split; [apply length_filter|].
  apply NoDup_filter.
Qed.

Lemma intersectResults_size_witness :
  NoDup (intersectResults [["a"; "b"; "c"]; ["c"; "b"]]).
Proof.
  apply (intersectResults_size ["a"; "b"; "c"]).
  apply NoDup_ListNoDup. repeat constructor; simpl; intuition discriminate.
Defined.

End IntersectorComposition.

(** ** Further properties of [Ranker] *)

Module RankerOrder.
Import Ranker.

Section DistinctKeys.
Context {A : Type} (key : A → Z).

Lemma filter_key_short (l : list A) (k : Z) :
  NoDup (key <$> l) → (length (filter (λ a, key a = k) l) ≤ 1)%nat.
Proof.
  induction l as [|x l IH]; [simpl; lia|].
  rewrite fmap_cons, NoDup_cons. intros [Hx Hl].
  rewrite filter_cons. case_decide as Hk; [|by apply IH].
  rewrite filter_drops_all; [simpl; lia|].
  apply Forall_forall. intros y Hy Hyk. apply Hx.
  apply list_elem_of_fmap. exists y. split; [congruence|done].
Qed.

Lemma filter_key_perm (l l' : list A) (k : Z) :
  l ≡ₚ l' → NoDup (key <$> l) →
  filter (λ a, key a = k) l = filter (λ a, key a = k) l'.
Proof.
  intros Hperm Hnd.
  pose proof (filter_key_short l k Hnd) as Hlen.
  assert (Hp : filter (λ a, key a = k) l ≡ₚ filter (λ a, key a = k) l')
    by (by rewrite Hperm).
  destruct (filter (λ a, key a = k) l) as [|x [|y t]]; simpl in Hlen.
  - by apply Permutation_nil_l.
  - by apply Permutation_singleton_l.
  - lia.
Qed.

End DistinctKeys.

Abbreviation byActivity := (λ x : string * PageResultData, activityTimestamp x.2).

(** Ranking a collection that is already in descending order of activity
    timestamp returns it as it is; in particular ranking twice is ranking
    once. *)
Theorem sortUnifiedBlankSearchResult_idempotent
    (resultDataByPage : list (string * PageResultData)) :
  sortUnifiedBlankSearchResult (sortUnifiedBlankSearchResult resultDataByPage)
  = sortUnifiedBlankSearchResult resultDataByPage ∧
  (StronglySorted (λ x y, activityTimestamp y.2 ≤ activityTimestamp x.2)
                  resultDataByPage →
   sortUnifiedBlankSearchResult resultDataByPage = resultDataByPage).
Proof.
  assert (Hfix : ∀ l : list (string * PageResultData),
    StronglySorted (λ x y, activityTimestamp y.2 ≤ activityTimestamp x.2) l →
    sortUnifiedBlankSearchResult l = l).
  { intros l Hl. symmetry.
    by apply (JsArrayFacts.sort_characterised byActivity). }
  split; [|apply Hfix].
  apply Hfix, (JsArrayFacts.sort_descending byActivity).
Qed.

Lemma sortUnifiedBlankSearchResult_idempotent_witness :
  sortUnifiedBlankSearchResult [("p3", entry 200); ("p1", entry 100); ("p2", entry 50)]
  = [("p3", entry 200); ("p1", entry 100); ("p2", entry 50)].
Proof.
  apply (sortUnifiedBlankSearchResult_idempotent
           [("p3", entry 200); ("p1", entry 100); ("p2", entry 50)]).
  repeat first [apply SSorted_nil | apply SSorted_cons
               | apply Forall_nil_2 | apply Forall_cons_2];
    vm_compute; discriminate.
Defined.

(** When no two entries share an activity timestamp, the ranking does not
    depend on the order in which the collection lists its pairs. *)
Theorem sortUnifiedBlankSearchResult_order_independent
    (l l' : list (string * PageResultData)) :
  l ≡ₚ l' →
  NoDup ((λ x, activityTimestamp x.2) <$> l) →
  sortUnifiedBlankSearchResult l = sortUnifiedBlankSearchResult l'.
Proof.
  intros Hperm Hnd. unfold sortUnifiedBlankSearchResult.
  apply (JsArrayFacts.descending_filters_eq byActivity);
    try apply (JsArrayFacts.sort_descending byActivity).
  intros k.
  rewrite !(JsArrayFacts.sort_stable byActivity).
  by apply (filter_key_perm byActivity).
Qed.

Lemma sortUnifiedBlankSearchResult_order_independent_witness :
  sortUnifiedBlankSearchResult [("p1", entry 100); ("p2", entry 50)]
  = sortUnifiedBlankSearchResult [("p2", entry 50); ("p1", entry 100)].
Proof.
  apply sortUnifiedBlankSearchResult_order_independent.
  - apply Permutation_swap.
  - apply NoDup_ListNoDup. repeat constructor; simpl; intuition discriminate.
Defined.

(** With equal activity timestamps the input order does show: two pairs of
    the same timestamp come out in the order they went in. *)
Example sortUnifiedBlankSearchResult_ties :
  sortUnifiedBlankSearchResult [("p1", entry 7); ("p2", entry 7)]
  = [("p1", entry 7); ("p2", entry 7)] ∧
  sortUnifiedBlankSearchResult [("p2", entry 7); ("p1", entry 7)]
  = [("p2", entry 7); ("p1", entry 7)].
Proof. split; reflexivity. Qed.

End RankerOrder.

(** ** Further properties of [Tokenizer] *)

Module TokenizerTokens.
Import JsString JsStringFacts Tokenizer TokenizerFacts.

Lemma append_String c s t : String c s +:+ t = String c (s +:+ t).
Proof. reflexivity. Qed.

Lemma append_empty_r s : s +:+ EmptyString = s.
Proof. induction s as [|c s IH]; [done|]. by rewrite append_String, IH. Qed.

Lemma append_assoc s t u : (s +:+ t) +:+ u = s +:+ (t +:+ u).
Proof. induction s as [|c s IH]; [done|]. by rewrite !append_String, IH. Qed.

Lemma occursIn_empty s : occursIn EmptyString s.
Proof. by exists EmptyString, s. Qed.

Lemma occursIn_prefix h post : occursIn h (h +:+ post).
Proof. by exists EmptyString, post. Qed.

Lemma occursIn_String c f s : occursIn f s → occursIn f (String c s).
Proof. intros (pre & post & ->). by exists (String c pre), post. Qed.

Lemma occursIn_trans a b c : occursIn a b → occursIn b c → occursIn a c.
Proof.
  intros (p1 & q1 & ->) (p2 & q2 & ->).
  exists (p2 +:+ p1), (q1 +:+ q2). by rewrite !append_assoc.
Qed.

Lemma hasChar_String p c s :
  hasChar p (String c s) = false ↔ p c = false ∧ hasChar p s = false.
Proof. simpl. apply orb_false_iff. Qed.

(** The pieces of a split hold only characters of the string. *)
Lemma split_hasChar p sep s :
  hasChar p s = false → Forall (λ f, hasChar p f = false) (split sep s).
Proof.
  induction s as [|c s IH]; simpl; [by repeat constructor|].
  intros [Hc Hs]%orb_false_iff. specialize (IH Hs).
  destruct (Ascii.eqb c sep); [by constructor|].
  destruct (split sep s) as [|h t]; inversion IH; subst;
    constructor; try done; by apply hasChar_String.
Qed.

Lemma split_no_sep sep s :
  Forall (λ f, hasChar (λ c, Ascii.eqb c sep) f = false) (split sep s).
Proof.
  induction s as [|c s IH]; simpl; [by repeat constructor|].
  destruct (Ascii.eqb c sep) eqn:Hc; [by constructor|].
  destruct (split sep s) as [|h t]; inversion IH; subst;
    constructor; try done; by apply hasChar_String.
Qed.

Lemma split_single sep s :
  hasChar (λ c, Ascii.eqb c sep) s = false → split sep s = [s].
Proof.
  induction s as [|c s IH]; simpl; [done|].
  intros [Hc Hs]%orb_false_iff. by rewrite Hc, (IH Hs).
Qed.

Lemma split_occurs sep s :
  Forall (λ f, occursIn f s) (split sep s)
  ∧ ∃ h t post, split sep s = h :: t ∧ s = h +:+ post.
Proof.
  induction s as [|c s (IH & h & t & post & Hsplit & Hpost)]; simpl.
  - split; [repeat constructor; apply occursIn_empty|].
    by exists EmptyString, [], EmptyString.
  - assert (Hall : Forall (λ f, occursIn f (String c s)) (split sep s)).
    { eapply Forall_impl; [exact IH|]. intros f. apply occursIn_String. }
    destruct (Ascii.eqb c sep).
    + split; [constructor; [apply occursIn_empty|done]|].
      by exists EmptyString, (split sep s), (String c s).
    + rewrite Hsplit in *. apply Forall_cons in Hall as [_ Hall]. split.
      * constructor; [|done]. rewrite Hpost.
        apply (occursIn_prefix (String c h) post).
      * exists (String c h), t, post. by rewrite Hpost.
Qed.

Lemma splitWhitespaceFrom_hasChar p gap s :
  hasChar p s = false →
  Forall (λ f, hasChar p f = false) (splitWhitespaceFrom gap s).
Proof.
  revert gap. induction s as [|c s IH]; simpl; intros gap;
    [by repeat constructor|].
  intros [Hc Hs]%orb_false_iff.
  destruct (isWhitespace c).
  - destruct gap; [by apply IH|]. constructor; [done|by apply IH].
  - specialize (IH false Hs).
    destruct (splitWhitespaceFrom false s) as [|h t]; inversion IH; subst;
      constructor; try done; by apply hasChar_String.
Qed.

Lemma splitWhitespaceFrom_no_space gap s :
  Forall (λ f, hasChar isWhitespace f = false) (splitWhitespaceFrom gap s).
Proof.
  revert gap. induction s as [|c s IH]; simpl; intros gap;
    [by repeat constructor|].
  destruct (isWhitespace c) eqn:Hc.
  - destruct gap; [by apply IH|]. constructor; [done|by apply IH].
  - specialize (IH false).
    destruct (splitWhitespaceFrom false s) as [|h t]; inversion IH; subst;
      constructor; try done; by apply hasChar_String.
Qed.

Lemma splitWhitespaceFrom_occurs s :
  (∀ gap, Forall (λ f, occursIn f s) (splitWhitespaceFrom gap s))
  ∧ ∃ h t post, splitWhitespaceFrom false s = h :: t ∧ s = h +:+ post.
Proof.
  induction s as [|c s (IH & h & t & post & Hsplit & Hpost)]; simpl.
  - split; [intros _; repeat constructor; apply occursIn_empty|].
    by exists EmptyString, [], EmptyString.
  - assert (Hall : ∀ gap,
      Forall (λ f, occursIn f (String c s)) (splitWhitespaceFrom gap s)).
    { intros gap. eapply Forall_impl; [exact (IH gap)|].
      intros f. apply occursIn_String. }
    destruct (isWhitespace c).
    + split.
      * intros [|]; [done|]. constructor; [apply occursIn_empty|done].
      * by exists EmptyString, (splitWhitespaceFrom true s), (String c s).
    + pose proof (Hall false) as Hf. rewrite Hsplit in *.
      apply Forall_cons in Hf as [_ Hf]. split.
      * intros _. constructor; [|done]. rewrite Hpost.
        apply (occursIn_prefix (String c h) post).
      * exists (String c h), t, post. by rewrite Hpost.
Qed.

Lemma elem_of_filterBoolean f l : f ∈ filterBoolean l ↔ f ≠ EmptyString ∧ f ∈ l.
Proof. apply (list_elem_of_filter (λ s, s ≠ EmptyString)). Qed.

Lemma fragment_shape query f :
  f ∈ fragments query →
  f ≠ EmptyString ∧ hasChar isDquote f = false
  ∧ occursIn f (toLocaleLowerCase query).
Proof.
  intros [Hne Hf]%elem_of_filterBoolean. split; [done|]. split.
  - exact (proj1 (Forall_forall _ _) (split_no_sep dquote _) f Hf).
  - exact (proj1 (Forall_forall _ _) (proj1 (split_occurs dquote _)) f Hf).
Qed.

Lemma subTerm_shape f t :
  t ∈ subTermsOf f →
  t ≠ EmptyString ∧ hasChar isWhitespace t = false ∧ occursIn t f
  ∧ (hasChar isDquote f = false → hasChar isDquote t = false).
Proof.
  intros [Hne Ht]%elem_of_filterBoolean. split_and!; [done| | |].
  - exact (proj1 (Forall_forall _ _)
             (splitWhitespaceFrom_no_space false f) t Ht).
  - exact (proj1 (Forall_forall _ _)
             (proj1 (splitWhitespaceFrom_occurs f) false) t Ht).
  - intros Hf.
    exact (proj1 (Forall_forall _ _)
             (splitWhitespaceFrom_hasChar isDquote false f Hf) t Ht).
Qed.

(** Every term is a non-empty word without white space and without double
    quote; every phrase is non-empty, holds no double quote and neither
    begins nor ends with white space. *)
Theorem splitQueryIntoTerms_token_shape (query : string) :
  let r := splitQueryIntoTerms query in
  Forall (λ t, t ≠ EmptyString ∧ hasChar isWhitespace t = false
               ∧ hasChar isDquote t = false) (terms r) ∧
  Forall (λ p, p ≠ EmptyString ∧ hasChar isDquote p = false
               ∧ hasOuterWhitespace p = false) (phrases r).
Proof.
  intros r. subst r. split; apply Forall_forall.
  - intros t (f & Hf & _ & Ht)%elem_of_terms.
    destruct (fragment_shape _ _ Hf) as (_ & Hq & _).
    destruct (subTerm_shape _ _ Ht) as (? & ? & _ & ?). auto.
  - intros p [Hp Hq]%elem_of_phrases.
    destruct (fragment_shape _ _ Hp) as (? & ? & _). split_and!; [done..|].
    apply not_true_iff_false in Hq. rewrite wasNotDoubleQuoted_iff in Hq.
    apply not_true_is_false. tauto.
Qed.

(** Every term and every phrase is a piece of the lower-cased query: it
    occurs in it as a substring. *)
Theorem splitQueryIntoTerms_substrings (query : string) :
  let r := splitQueryIntoTerms query in
  Forall (λ t, occursIn t (toLocaleLowerCase query)) (terms r ++ phrases r).
Proof.
  intros r. subst r. apply Forall_app. split; apply Forall_forall.
  - intros t (f & Hf & _ & Ht)%elem_of_terms.
    destruct (fragment_shape _ _ Hf) as (_ & _ & Hocc).
    destruct (subTerm_shape _ _ Ht) as (_ & _ & Htf & _).
    by eapply occursIn_trans.
  - intros p [Hp _]%elem_of_phrases. by apply fragment_shape.
Qed.

Lemma lowerChar_keeps_class c :
  isWhitespace (lowerChar c) = isWhitespace c
  ∧ isDquote (lowerChar c) = isDquote c.
Proof. by destruct c as [[] [] [] [] [] [] [] []]. Qed.

Lemma hasChar_lower p s :
  (∀ c, p (lowerChar c) = p c) →
  hasChar p (toLocaleLowerCase s) = hasChar p s.
Proof. intros Hp. induction s as [|c s IH]; simpl; [done|]. by rewrite Hp, IH. Qed.

Lemma hasOuterWhitespace_lower s :
  hasOuterWhitespace (toLocaleLowerCase s) = hasOuterWhitespace s.
Proof.
  unfold hasOuterWhitespace. f_equal.
  - destruct s as [|c s]; [done|]. apply lowerChar_keeps_class.
  - induction s as [|c s IH]; [done|].
    destruct s as [|d s]; [apply lowerChar_keeps_class|exact IH].
Qed.

Lemma fragments_plain query :
  hasChar isDquote (toLocaleLowerCase query) = false →
  fragments query = filterBoolean [toLocaleLowerCase query].
Proof. intros H. unfold fragments. by rewrite (split_single dquote _ H). Qed.

(** A lower-case query without double quote is split into its words and
    nothing else: there is no phrase, and the terms are exactly the words
    between the white space of the query. *)
Theorem splitQueryIntoTerms_plain (query : string) :
  hasChar isDquote query = false → isLowerCase query →
  phrases (splitQueryIntoTerms query) = [] ∧
  ∀ t, t ∈ terms (splitQueryIntoTerms query) ↔ t ∈ subTermsOf query.
Proof.
  intros Hq Hlow.
  assert (Hfr : fragments query = filterBoolean [query]).
  { rewrite fragments_plain; rewrite Hlow; done. }
  assert (Hin : ∀ f, f ∈ fragments query ↔ f ≠ EmptyString ∧ f = query).
  { intros f. by rewrite Hfr, elem_of_filterBoolean, list_elem_of_singleton. }
  split.
  - apply elem_of_nil_inv. intros p [Hp Hwas]%elem_of_phrases.
    apply Hin in Hp as [_ ->]. apply not_true_iff_false in Hwas.
    apply Hwas, wasNotDoubleQuoted_iff. by right.
  - intros t. rewrite elem_of_terms. split.
    + by intros (f & [_ ->]%Hin & _ & Ht).
    + intros Ht. exists query. split_and!; [|apply wasNotDoubleQuoted_iff; by right|done].
      apply Hin. split; [|done]. intros ->. by apply elem_of_nil in Ht.
Qed.

Lemma splitQueryIntoTerms_plain_witness :
  phrases (splitQueryIntoTerms "memex search  engine") = [] ∧
  ∀ t, t ∈ terms (splitQueryIntoTerms "memex search  engine")
       ↔ t ∈ subTermsOf "memex search  engine".
Proof.
  apply (splitQueryIntoTerms_plain "memex search  engine"); reflexivity.
Defined.

Lemma only_space_chars s :
  hasChar (λ c, negb (isWhitespace c || isDquote c)) s = false →
  hasChar isDquote s = false →
  hasChar (λ c, negb (isWhitespace c)) s = false.
Proof.
  induction s as [|c s IH]; simpl; [done|].
  intros [Hc Hs]%orb_false_iff [Hd Hs']%orb_false_iff.
  rewrite (IH Hs Hs'), Hd, orb_false_r in *.
  by rewrite Hc.
Qed.

Lemma blank_has_no_word gap s :
  hasChar (λ c, negb (isWhitespace c)) s = false →
  filterBoolean (splitWhitespaceFrom gap s) = [].
Proof.
  revert gap. induction s as [|c s IH]; simpl; intros gap.
  - intros _. unfold filterBoolean. by rewrite filter_cons_False by auto.
  - intros [Hc Hs]%orb_false_iff. apply negb_false_iff in Hc. rewrite Hc.
    destruct gap; [by apply IH|].
    unfold filterBoolean. rewrite filter_cons_False by auto. by apply IH.
Qed.

(** A query made of white space and double quotes only, the empty query
    among them, yields no term and no phrase. *)
Theorem splitQueryIntoTerms_blank (query : string) :
  hasChar (λ c, negb (isWhitespace c || isDquote c)) query = false →
  splitQueryIntoTerms query = {| terms := []; phrases := [] |}.
Proof.
  intros Hblank.
  assert (Hfrag : ∀ f, f ∈ fragments query →
            f ≠ EmptyString ∧ hasChar (λ c, negb (isWhitespace c)) f = false).
  { intros f Hf. destruct (fragment_shape _ _ Hf) as (Hne & Hq & _).
    split; [done|]. apply only_space_chars; [|done].
    apply elem_of_filterBoolean in Hf as [_ Hf].
    refine (proj1 (Forall_forall _ _) (split_hasChar _ dquote _ _) f Hf).
    rewrite hasChar_lower; [done|]. intros c.
    destruct (lowerChar_keeps_class c) as [-> ->]. done. }
  assert (Hterms : terms (splitQueryIntoTerms query) = []).
  { apply elem_of_nil_inv. intros t (f & Hf & _ & Ht)%elem_of_terms.
    destruct (Hfrag f Hf) as [_ Hsp]. unfold subTermsOf, splitWhitespace in Ht.
    rewrite (blank_has_no_word false f Hsp) in Ht. by apply elem_of_nil in Ht. }
  assert (Hphrases : phrases (splitQueryIntoTerms query) = []).
  { apply elem_of_nil_inv. intros p [Hp Hwas]%elem_of_phrases.
    destruct (Hfrag p Hp) as [Hne Hsp].
    apply not_true_iff_false in Hwas. apply Hwas, wasNotDoubleQuoted_iff.
    left. destruct p as [|c p]; [done|]. simpl in Hsp.
    apply orb_false_iff in Hsp as [Hc _]. apply negb_false_iff in Hc.
    unfold hasOuterWhitespace. simpl. by rewrite Hc. }
  unfold splitQueryIntoTerms in *. simpl in *. by rewrite Hterms, Hphrases.
Qed.

Lemma splitQueryIntoTerms_blank_witness :
  splitQueryIntoTerms (" " +:+ quoted "  " +:+ " ")
  = {| terms := []; phrases := [] |}.
Proof.
  apply (splitQueryIntoTerms_blank (" " +:+ quoted "  " +:+ " ")). reflexivity.
Defined.

(** An unquoted query typed with a capital letter and without outer white
    space is not split: it becomes one phrase, the whole query in lower
    case, and there is no term. *)
Theorem splitQueryIntoTerms_capital (query : string) :
  hasChar isDquote query = false →
  hasOuterWhitespace query = false →
  toLocaleLowerCase query ≠ query →
  splitQueryIntoTerms query
  = {| terms := []; phrases := [toLocaleLowerCase query] |}.
Proof.
  intros Hq Hws Hcap.
  assert (Hq' : hasChar isDquote (toLocaleLowerCase query) = false).
  { rewrite hasChar_lower; [done|]. intros c. apply lowerChar_keeps_class. }
  assert (Hne : toLocaleLowerCase query ≠ EmptyString).
  { intros Hnil. apply Hcap. by destruct query. }
  assert (Hwas : wasNotDoubleQuoted (toLocaleLowerCase query) query = false).
  { apply not_true_is_false. rewrite wasNotDoubleQuoted_iff.
    rewrite hasOuterWhitespace_lower. intros [?|?]; congruence. }
  unfold splitQueryIntoTerms. rewrite (fragments_plain _ Hq').
  unfold filterBoolean. rewrite filter_cons_True by done.
  simpl. unfold tokenizeFragment. by rewrite Hwas.
Qed.

Lemma splitQueryIntoTerms_capital_witness :
  splitQueryIntoTerms "Memex search"
  = {| terms := []; phrases := ["memex search"] |}.
Proof.
  apply (splitQueryIntoTerms_capital "Memex search");
    [reflexivity|reflexivity|discriminate].
Defined.

End TokenizerTokens.

(** ** Further properties of [TermIndexQuery] *)

Module TermQuerySemantics.
Import JsString JsStringFacts Intersector IntersectorFacts.
Import TermIndexQuery TermIndexQueryFacts.

(** *** Tables with unique primary keys *)

Section KeyedTable.
Context {R : Type} (key : R → string) (table : list R).

Lemma key_of_filtered (P : R → Prop) `{!∀ r, Decision (P r)} k :
  k ∈ key <$> filter P table → k ∈ key <$> table.
Proof.
  intros (r & -> & [_ Hr]%list_elem_of_filter)%list_elem_of_fmap.
  apply list_elem_of_fmap. by exists r.
Qed.

Lemma find_by_key_Some k :
  k ∈ key <$> table →
  ∃ r, List.find (λ r, bool_decide (key r = k)) table = Some r.
Proof.
  intros (r & -> & Hr)%list_elem_of_fmap.
  destruct (List.find (λ r', bool_decide (key r' = key r)) table) as [r'|] eqn:Hf;
    [by exists r'|].
  apply list_elem_of_In in Hr.
  pose proof (List.find_none _ _ Hf r Hr) as Hnone. simpl in Hnone.
  by rewrite bool_decide_eq_false in Hnone.
Qed.

Lemma find_by_key_sound k r :
  List.find (λ r, bool_decide (key r = k)) table = Some r →
  r ∈ table ∧ key r = k.
Proof.
  intros [Hin Hk]%List.find_some. split; [by apply list_elem_of_In|].
  by apply bool_decide_eq_true in Hk.
Qed.

Hypothesis unique : NoDup (key <$> table).

Lemma key_unique a b : a ∈ table → b ∈ table → key a = key b → a = b.
Proof.
  clear -unique. induction table as [|x l IH]; [by intros ?%elem_of_nil|].
  rewrite fmap_cons, NoDup_cons in unique. destruct unique as [Hx Hl].
  intros [->|Ha]%elem_of_cons [->|Hb]%elem_of_cons Hk; [done| | |by apply IH].
  - destruct Hx. rewrite Hk. apply list_elem_of_fmap. by exists b.
  - destruct Hx. rewrite <- Hk. apply list_elem_of_fmap. by exists a.
Qed.

Lemma find_by_key k r :
  List.find (λ r, bool_decide (key r = k)) table = Some r
  ↔ r ∈ table ∧ key r = k.
Proof.
  split; [apply find_by_key_sound|]. intros [Hr <-].
  destruct (find_by_key_Some (key r)) as [r' Hr'].
  { apply list_elem_of_fmap. by exists r. }
  rewrite Hr'. f_equal.
  apply find_by_key_sound in Hr' as [? ?]. by apply key_unique.
Qed.

Lemma key_in_filtered (P : R → Prop) `{!∀ r, Decision (P r)} r :
  r ∈ table → (key r ∈ key <$> filter P table ↔ P r).
Proof.
  intros Hr. rewrite list_elem_of_fmap. split.
  - intros (r' & Hk & [HP Hr']%list_elem_of_filter).
    by rewrite (key_unique r r' Hr Hr' Hk).
  - intros HP. exists r. by rewrite list_elem_of_filter.
Qed.

End KeyedTable.

Lemma elem_of_intersectResults_any sets id :
  id ∈ intersectResults sets ↔ sets ≠ [] ∧ inAll sets id.
Proof.
  destruct sets as [|a rest].
  - simpl. rewrite elem_of_nil. tauto.
  - rewrite elem_of_intersectResults. split; [done|tauto].
Qed.

Lemma intersectResults_in_first sets id :
  id ∈ intersectResults sets → ∃ a rest, sets = a :: rest ∧ id ∈ a.
Proof.
  destruct sets as [|a rest]; [by intros ?%elem_of_nil|].
  rewrite elem_of_intersectResults. unfold inAll. rewrite Forall_cons.
  intros [? _]. by exists a, rest.
Qed.

Lemma lists_nonempty {A} (f g : string → A) (B1 B2 : list string) :
  (f <$> B1) ++ (g <$> B2) ≠ [] ↔ B1 ++ B2 ≠ [].
Proof. destruct B1, B2; simpl; split; intros H; congruence. Qed.

(** *** Annotations *)

Lemma annotation_inAll table terms phrases a :
  NoDup (Annotation.url <$> table) → a ∈ table →
  (inAll (annotationSets table terms phrases) (Annotation.url a)
   ↔ annotationMatches terms phrases a).
Proof.
  intros Huniq Ha. unfold inAll, annotationMatches, annotationSets.
  rewrite Forall_app, !Forall_fmap.
  unfold annotationTermKeys, annotationPhraseKeys.
  split; intros [H1 H2]; split;
    (eapply Forall_impl; [eassumption|]); intros x Hx; simpl in *.
  - by apply (key_in_filtered Annotation.url table Huniq) in Hx.
  - by apply (key_in_filtered Annotation.url table Huniq) in Hx.
  - by apply (key_in_filtered Annotation.url table Huniq).
  - by apply (key_in_filtered Annotation.url table Huniq).
Qed.

Lemma annotation_ids_in_table table terms phrases k :
  k ∈ intersectResults (annotationSets table terms phrases) →
  k ∈ Annotation.url <$> table.
Proof.
  intros (s & rest & Hsets & Hk)%intersectResults_in_first.
  assert (Hs : s ∈ annotationSets table terms phrases)
    by (rewrite Hsets; left).
  apply elem_of_app in Hs
    as [(t & -> & _)%list_elem_of_fmap|(t & -> & _)%list_elem_of_fmap];
    by eapply key_of_filtered.
Qed.

(** [queryAnnotationsByTerms] is a conjunction: on a table with unique
    keys it returns an annotation exactly when at least one term or phrase
    is given and the annotation matches every one of them; every identifier
    it looks up resolves to a row, and no row comes back twice. *)
Theorem queryAnnotationsByTerms_conjunction (storageManager : Storage)
    (terms phrases : list string) :
  NoDup (Annotation.url <$> annotations storageManager) →
  (∀ a, Some a ∈ queryAnnotationsByTerms storageManager terms phrases
        ↔ terms ++ phrases ≠ [] ∧ a ∈ annotations storageManager
          ∧ annotationMatches terms phrases a) ∧
  (None ∉ queryAnnotationsByTerms storageManager terms phrases) ∧
  NoDup (queryAnnotationsByTerms storageManager terms phrases).
Proof.
  intros Huniq. unfold queryAnnotationsByTerms, bulkGet.
  set (table := annotations storageManager) in *.
  fold (annotationSets table terms phrases).
  split_and!.
  - intros a. rewrite list_elem_of_fmap. split.
    + intros (k & Hfind & Hk). symmetry in Hfind.
      apply (find_by_key Annotation.url table Huniq) in Hfind as [Ha <-].
      apply elem_of_intersectResults_any in Hk as [Hne Hall].
      split; [by apply lists_nonempty in Hne|]. split; [done|].
      by apply annotation_inAll in Hall.
    + intros (Hne & Ha & Hm). exists (Annotation.url a). split.
      * symmetry. by apply (find_by_key Annotation.url table Huniq).
      * apply elem_of_intersectResults_any. split; [by apply lists_nonempty|].
        by apply annotation_inAll.
  - intros (k & Hfind & Hk)%list_elem_of_fmap.
    apply annotation_ids_in_table in Hk.
    destruct (find_by_key_Some Annotation.url table k Hk) as [r Hr].
    congruence.
  - apply NoDup_fmap_2_strong.
    + intros k1 k2 Hk1 Hk2 Hfind.
      apply annotation_ids_in_table in Hk1.
      destruct (find_by_key_Some Annotation.url table k1 Hk1) as [r Hr].
      pose proof Hr as Hr1. rewrite Hfind in Hr.
      apply find_by_key_sound in Hr as [_ <-].
      by apply find_by_key_sound in Hr1 as [_ <-].
    + destruct (annotationSets table terms phrases) as [|s rest] eqn:Hsets;
        [apply NoDup_nil_2|].
      rewrite intersectResults_cons. apply NoDup_filter.
      assert (Hs : s ∈ annotationSets table terms phrases)
        by (rewrite Hsets; left).
      apply elem_of_app in Hs
        as [(t & -> & _)%list_elem_of_fmap|(t & -> & _)%list_elem_of_fmap];
        (eapply sublist_NoDup; [exact Huniq|]);
        apply fmap_sublist, sublist_filter.
Qed.

Example queryAnnotationsByTerms_sample :
  (λ row : option Annotation.t, Annotation.url <$> row)
    <$> queryAnnotationsByTerms annotationStorage ["repetition"] ["spaced rep"]
  = [Some "p#1"] ∧
  queryAnnotationsByTerms annotationStorage [] [] = [].
Proof. split; reflexivity. Qed.

Lemma queryAnnotationsByTerms_conjunction_witness :
  None ∉ queryAnnotationsByTerms annotationStorage ["repetition"] ["spaced rep"].
Proof.
  apply (queryAnnotationsByTerms_conjunction annotationStorage
           ["repetition"] ["spaced rep"]).
  apply NoDup_ListNoDup. repeat constructor; simpl; intuition discriminate.
Defined.

(** *** Pages *)

Lemma queryPagesByTerms_ids st startsWithMatching terms phrases :
  id <$> queryPagesByTerms st startsWithMatching terms phrases
  = intersectResults (pageSets startsWithMatching (pages st) terms phrases).
Proof.
  rewrite queryPagesByTerms_eq, <- list_fmap_compose. apply list_fmap_id.
Qed.

Lemma page_inAll startsWithMatching table terms phrases p :
  NoDup (Page.url <$> table) → p ∈ table →
  (inAll (pageSets startsWithMatching table terms phrases) (Page.url p)
   ↔ pageMatches startsWithMatching terms phrases p).
Proof.
  intros Huniq Hp. unfold inAll, pageMatches, pageSets.
  rewrite Forall_app, !Forall_fmap.
  unfold pageTermKeys, pagePhraseKeys.
  split; intros [H1 H2]; split;
    (eapply Forall_impl; [eassumption|]); intros x Hx; simpl in *.
  - by apply (key_in_filtered Page.url table Huniq) in Hx.
  - by apply (key_in_filtered Page.url table Huniq) in Hx.
  - by apply (key_in_filtered Page.url table Huniq).
  - by apply (key_in_filtered Page.url table Huniq).
Qed.

Lemma page_set_keys startsWithMatching table terms phrases s :
  s ∈ pageSets startsWithMatching table terms phrases →
  sublist s (Page.url <$> table).
Proof.
  unfold pageSets, pageTermKeys, pagePhraseKeys.
  intros [(t & -> & _)%list_elem_of_fmap|(t & -> & _)%list_elem_of_fmap]%elem_of_app;
    apply fmap_sublist, sublist_filter.
Qed.

(** [queryPagesByTerms] is a conjunction: on a table with unique keys it
    returns the identifier of a page exactly when at least one term or
    phrase is given and the page matches every one of them; no page comes
    back twice. Without any term or phrase nothing is returned. *)
Theorem queryPagesByTerms_conjunction (storageManager : Storage)
    (startsWithMatching : bool) (terms phrases : list string) :
  NoDup (Page.url <$> pages storageManager) →
  (∀ k, k ∈ id <$> queryPagesByTerms storageManager startsWithMatching
                     terms phrases
        ↔ terms ++ phrases ≠ []
          ∧ ∃ p, p ∈ pages storageManager ∧ Page.url p = k
                 ∧ pageMatches startsWithMatching terms phrases p) ∧
  NoDup (id <$> queryPagesByTerms storageManager startsWithMatching
                  terms phrases).
Proof.
  intros Huniq. rewrite queryPagesByTerms_ids.
  set (table := pages storageManager) in *. split.
  - intros k. rewrite elem_of_intersectResults_any. split.
    + intros [Hne Hall]. split; [by apply lists_nonempty in Hne|].
      assert (Hk : k ∈ Page.url <$> table).
      { destruct (pageSets startsWithMatching table terms phrases)
          as [|s rest] eqn:Hsets; [done|].
        apply (elem_of_sublist s); [by apply Forall_cons in Hall as [? _]|].
        apply (page_set_keys startsWithMatching table terms phrases).
        rewrite Hsets. left. }
      apply list_elem_of_fmap in Hk as (p & -> & Hp).
      exists p. split_and!; [done..|]. by apply page_inAll in Hall.
    + intros (Hne & p & Hp & <- & Hm). split; [by apply lists_nonempty|].
      by apply page_inAll.
  - destruct (pageSets startsWithMatching table terms phrases)
      as [|s rest] eqn:Hsets; [apply NoDup_nil_2|].
    rewrite intersectResults_cons. apply NoDup_filter.
    eapply sublist_NoDup; [exact Huniq|].
    apply (page_set_keys startsWithMatching table terms phrases).
    rewrite Hsets. left.
Qed.

Lemma queryPagesByTerms_conjunction_witness :
  NoDup (id <$> queryPagesByTerms sampleStorage false ["foo"] ["bar baz"]).
Proof.
  apply (queryPagesByTerms_conjunction sampleStorage false ["foo"] ["bar baz"]).
  apply NoDup_ListNoDup. repeat constructor; simpl; intuition discriminate.
Defined.

Lemma startsWith_refl t : startsWith t t = true.
Proof.
  induction t as [|c t IH]; simpl; [done|]. by rewrite Ascii.eqb_refl, IH.
Qed.

Lemma indexMatches_prefix term index :
  indexMatches false term index → indexMatches true term index.
Proof.
  unfold indexMatches. intros Hin%bool_decide_unpack.
  apply Is_true_true, existsb_exists. exists term.
  split; [by apply list_elem_of_In|apply startsWith_refl].
Qed.

Lemma pageTermKeys_prefix table term k :
  k ∈ pageTermKeys false table term → k ∈ pageTermKeys true table term.
Proof.
  unfold pageTermKeys. rewrite !list_elem_of_fmap.
  intros (p & -> & Hp). exists p. split; [done|].
  apply list_elem_of_filter in Hp as [Hm Hp].
  apply list_elem_of_filter. split; [|done].
  revert Hm. rewrite !orb_True.
  intros [[?|?]|?]; auto using indexMatches_prefix.
Qed.

(** Matching terms by prefix only widens the result: every page that the
    exact-match query returns is returned by the [startsWithMatching] query
    for the same terms and phrases, with the same timestamp. Nothing is said
    of the order in which the pages are returned. *)
Theorem queryPagesByTerms_prefix_widens (storageManager : Storage)
    (terms phrases : list string) :
  ∀ r, r ∈ queryPagesByTerms storageManager false terms phrases →
       r ∈ queryPagesByTerms storageManager true terms phrases.
Proof.
  intros r. rewrite !queryPagesByTerms_eq, !list_elem_of_fmap.
  intros (k & -> & Hk). exists k. split; [done|].
  revert Hk. unfold matchingPageIds.
  rewrite !elem_of_intersectResults_any, !lists_nonempty.
  intros [Hne Hall]. split; [done|].
  revert Hall. unfold inAll. rewrite !Forall_app, !Forall_fmap.
  intros [Hterms Hphrases]. split; [|done].
  eapply Forall_impl; [exact Hterms|].
  intros term. apply pageTermKeys_prefix.
Qed.

Lemma queryPagesByTerms_prefix_widens_witness :
  {| id := "p"; latestTimestamp := 30 |}
  ∈ queryPagesByTerms sampleStorage true ["foo"] ["bar baz"].
Proof.
  apply (queryPagesByTerms_prefix_widens sampleStorage ["foo"] ["bar baz"]).
  vm_compute. left.
Defined.

(** The converse fails: the prefix [fo] matches the pages whose terms start
    with it, the exact-match query for [fo] matches none. *)
Example queryPagesByTerms_prefix_sample :
  id <$> queryPagesByTerms sampleStorage false ["fo"] [] = [] ∧
  id <$> queryPagesByTerms sampleStorage true ["fo"] [] ≡ₚ ["p"; "q"].
Proof.
  split; [reflexivity|].
  assert (id <$> queryPagesByTerms sampleStorage true ["fo"] [] = ["p"; "q"])
    as -> by reflexivity.
  done.
Qed.

(** The timestamp returned for a page is never negative and never below the
    time of any Visit or Bookmark row of that page. *)
Theorem queryPagesByTerms_latest_bounds (storageManager : Storage)
    (startsWithMatching : bool) (terms phrases : list string) :
  Forall (λ r, 0 ≤ latestTimestamp r
               ∧ Forall (λ t, t ≤ latestTimestamp r)
                        (timesOfPage storageManager (id r)))
         (queryPagesByTerms storageManager startsWithMatching terms phrases).
Proof.
  rewrite queryPagesByTerms_eq. apply Forall_fmap, Forall_forall.
  intros k _. simpl. unfold maxWithZero.
  destruct (foldr_max_bounds 0 (timesOfPage storageManager k)) as (? & ? & _).
  done.
Qed.

End TermQuerySemantics.

(** ** Properties of [ContentScripts] *)

Module ContentScriptsFacts.
Import ContentScripts.




End ContentScriptsFacts.
